(** * A shallow embedding of the CoreMark linked-list benchmark (core_list_join.c
    and the collaborators it calls: crc16/crcu16/crcu32, calc_func, the
    matrix and state kernels, and the driver's [iterate]). *)

From Stdlib Require Import ZArith Lia Bool String Ascii.
From Stdlib Require Import List Sorting.Permutation Sorting.Sorted.
From stdpp Require Import base gmap.
Import ListNotations.

Open Scope Z_scope.

(** ** C integer types *)

Definition to_u8 (z : Z) : Z := z mod 256.
Definition to_u16 (z : Z) : Z := z mod 65536.
Definition to_u32 (z : Z) : Z := z mod 4294967296.
Definition to_s16 (z : Z) : Z :=
  let u := z mod 65536 in if u >=? 32768 then u - 65536 else u.
Definition to_s32 (z : Z) : Z :=
  let u := z mod 4294967296 in if u >=? 2147483648 then u - 4294967296 else u.

(** ** CRC utilities (core_util.c) *)

(** The body of the [for (i = 0; i < 8; i++)] loop of [crcu8]. *)
Fixpoint crcu8_loop (n : nat) (data crc : Z) : Z :=
  match n with
  | O => crc
  | S n' =>
      let x16 := Z.lxor (Z.land data 1) (Z.land crc 1) in
      let data' := Z.shiftr data 1 in
      if x16 =? 1 then
        let crc1 := Z.shiftr (Z.lxor crc 16386) 1 in
        crcu8_loop n' data' (Z.lor crc1 32768)
      else
        let crc1 := Z.shiftr crc 1 in
        crcu8_loop n' data' (Z.land crc1 32767)
  end.

Definition crcu8 (data crc : Z) : Z := crcu8_loop 8 (to_u8 data) (to_u16 crc).

Definition crcu16 (newval crc : Z) : Z :=
  let nv := to_u16 newval in
  let crc1 := crcu8 (to_u8 nv) crc in
  crcu8 (to_u8 (Z.shiftr nv 8)) crc1.

Definition crc16 (newval crc : Z) : Z := crcu16 (to_u16 (to_s16 newval)) crc.

Definition crcu32 (newval crc : Z) : Z :=
  let nv := to_u32 newval in
  let crc1 := crc16 (to_s16 nv) crc in
  crc16 (to_s16 (Z.shiftr nv 16)) crc1.

(** ** A state and error monad

    A computation reads and writes a state; it may fault. [NullDeref] and
    [WildDeref] are a dereference of NULL or of an address outside the
    memory; [OutOfFuel] stands for a loop of the C code that does not
    terminate (the model bounds every pointer-chasing loop by the number of
    cells of the memory, which a terminating walk never exceeds). *)

Inductive fault := NullDeref | WildDeref | OutOfFuel.

Definition M (St A : Type) : Type := St -> (A * St) + fault.

Definition ret {St A} (a : A) : M St A := fun s => inl (a, s).
Definition bind {St A B} (m : M St A) (k : A -> M St B) : M St B :=
  fun s => match m s with inl (a, s') => k a s' | inr e => inr e end.
Definition raise {St A} (e : fault) : M St A := fun _ => inr e.
Definition get {St} : M St St := fun s => inl (s, s).
Definition put {St} (s : St) : M St unit := fun _ => inl (tt, s).

Notation "x <- m ;; k" := (bind m (fun x => k))
  (at level 60, m at next level, right associativity).
Notation "m ;;; k" := (bind m (fun _ => k))
  (at level 60, right associativity).

(** ** Memory: the node array and the record array

    [struct list_head_s { struct list_head_s *next; struct list_data_s *info; }]
    and [struct list_data_s { ee_s16 data16; ee_s16 idx; }].  A node pointer is
    the index of its slot in the node array ([None] is NULL); a record pointer
    is the index of its slot in the record array. *)

Record list_data := mk_data { data16 : Z; idx : Z }.
Record list_head := mk_head { next : option nat; info : nat }.
Record heap := mk_heap { nodes : gmap nat list_head; datas : gmap nat list_data }.

Definition load_node (p : option nat) : M heap list_head :=
  fun h => match p with
           | None => inr NullDeref
           | Some n => match nodes h !! n with
                       | Some nd => inl (nd, h)
                       | None => inr WildDeref
                       end
           end.

Definition store_node (p : option nat) (nd : list_head) : M heap unit :=
  fun h => match p with
           | None => inr NullDeref
           | Some n => match nodes h !! n with
                       | Some _ => inl (tt, mk_heap (<[n := nd]> (nodes h)) (datas h))
                       | None => inr WildDeref
                       end
           end.

Definition load_data (r : nat) : M heap list_data :=
  fun h => match datas h !! r with
           | Some d => inl (d, h)
           | None => inr WildDeref
           end.

Definition store_data (r : nat) (d : list_data) : M heap unit :=
  fun h => match datas h !! r with
           | Some _ => inl (tt, mk_heap (nodes h) (<[r := d]> (datas h)))
           | None => inr WildDeref
           end.

(** [p->next = v] and [p->info = v]. *)
Definition set_next (p : option nat) (v : option nat) : M heap unit :=
  nd <- load_node p ;; store_node p (mk_head v (info nd)).
Definition set_info (p : option nat) (v : nat) : M heap unit :=
  nd <- load_node p ;; store_node p (mk_head (next nd) v).

(** The bound on pointer-chasing loops: the number of node cells. *)
Definition node_count : M heap nat := fun h => inl (S (size (nodes h)), h).

(** A computation on the memory, run inside a larger state. *)
Class HeapState (St : Type) := {
  get_heap : St -> heap;
  set_heap : heap -> St -> St
}.

#[global] Instance heap_HeapState : HeapState heap :=
  { get_heap h := h; set_heap h _ := h }.

Definition lift {St} `{HeapState St} {A} (m : M heap A) : M St A :=
  fun s => match m (get_heap s) with
           | inl (a, h) => inl (a, set_heap h s)
           | inr e => inr e
           end.

(** ** List operations (core_list_join.c) *)

(** [core_list_find]: the two [while] loops, with the node visited at each
    iteration recorded alongside the result ([core_list_find] drops it). *)
Fixpoint find_loop (fuel : nat) (stop : list_data -> bool) (lst : option nat)
  : M heap (option nat * list nat) :=
  match lst with
  | None => ret (None, [])
  | Some n =>
      match fuel with
      | O => raise OutOfFuel
      | S f =>
          nd <- load_node lst ;;
          d <- load_data (info nd) ;;
          if stop d then ret (lst, [n])
          else r <- find_loop f stop (next nd) ;;
               let '(found, vis) := r in ret (found, n :: vis)
      end
  end.

Definition find_pred (crit : list_data) : list_data -> bool :=
  if idx crit >=? 0 then fun d => idx d =? idx crit
  else fun d => Z.land (data16 d) 255 =? data16 crit.

Definition core_list_find_trace (lst : option nat) (crit : list_data)
  : M heap (option nat * list nat) :=
  fuel <- node_count ;; find_loop fuel (find_pred crit) lst.

Definition core_list_find (lst : option nat) (crit : list_data) : M heap (option nat) :=
  r <- core_list_find_trace lst crit ;; ret (fst r).

(** [core_list_reverse]. *)
Fixpoint reverse_loop (fuel : nat) (lst nxt : option nat) : M heap (option nat) :=
  match lst with
  | None => ret nxt
  | Some _ =>
      match fuel with
      | O => raise OutOfFuel
      | S f =>
          nd <- load_node lst ;;
          let tmp := next nd in
          set_next lst nxt ;;;
          reverse_loop f tmp lst
      end
  end.

Definition core_list_reverse (lst : option nat) : M heap (option nat) :=
  fuel <- node_count ;; reverse_loop fuel lst None.

(** [core_list_remove]. *)
Definition core_list_remove (item : option nat) : M heap (option nat) :=
  it <- load_node item ;;
  let ret_ := next it in
  rt <- load_node ret_ ;;
  let tmp := info it in
  set_info item (info rt) ;;;
  set_info ret_ tmp ;;;
  it' <- load_node item ;;
  nx <- load_node (next it') ;;
  set_next item (next nx) ;;;
  set_next ret_ None ;;;
  ret ret_.

(** [core_list_undo_remove]. *)
Definition core_list_undo_remove (item_removed item_modified : option nat)
  : M heap (option nat) :=
  ir <- load_node item_removed ;;
  im <- load_node item_modified ;;
  let tmp := info ir in
  set_info item_removed (info im) ;;;
  set_info item_modified tmp ;;;
  im' <- load_node item_modified ;;
  set_next item_removed (next im') ;;;
  set_next item_modified item_removed ;;;
  ret item_removed.

(** [core_list_insert_new]: [memblock] and [datablock] are the two cursors
    (passed by address in the C code, returned here with the new node). *)
Definition core_list_insert_new (insert_point : option nat) (inf : list_data)
    (memblock datablock memblock_end datablock_end : nat)
  : M heap (option nat * nat * nat) :=
  if (memblock_end <=? memblock + 1)%nat then ret (None, memblock, datablock)
  else if (datablock_end <=? datablock + 1)%nat then ret (None, memblock, datablock)
  else
    let newitem := Some memblock in
    let memblock' := S memblock in
    ip <- load_node insert_point ;;
    set_next newitem (next ip) ;;;
    set_next insert_point newitem ;;;
    set_info newitem datablock ;;;
    let datablock' := S datablock in
    store_data datablock (mk_data (data16 inf) (idx inf)) ;;;
    ret (newitem, memblock', datablock').

(** ** The merge sort of [core_list_mergesort]

    The passes run on the nodes of the chain in order; the comparator is
    stateful, as in the C code, and is called in the same order. *)
Section MergeSort.
Context {A St : Type} (cmp : A -> A -> M St Z).

(** The inner [while (psize > 0 || (qsize > 0 && q))] loop. *)
Fixpoint ms_merge (p : list A) : list A -> M St (list A) :=
  match p with
  | [] => fun q => ret q
  | a :: p' =>
      fix merge_q (q : list A) : M St (list A) :=
        match q with
        | [] => ret (a :: p')
        | b :: q' =>
            c <- cmp a b ;;
            if c <=? 0 then (r <- ms_merge p' q ;; ret (a :: r))
            else (r <- merge_q q' ;; ret (b :: r))
        end
  end.

(** One pass: the [while (p)] loop; returns the merged chain and [nmerges]. *)
Fixpoint ms_pass (fuel : nat) (insize : nat) (p : list A) : M St (list A * nat) :=
  match p with
  | [] => ret ([], O)
  | _ :: _ =>
      match fuel with
      | O => raise OutOfFuel
      | S f =>
          let q := skipn insize p in
          m <- ms_merge (firstn insize p) (firstn insize q) ;;
          r <- ms_pass f insize (skipn insize q) ;;
          let '(rest, nm) := r in
          ret (m ++ rest, S nm)
      end
  end.

(** The outer [while (1)] loop; [tail->next = NULL] dereferences NULL when a
    pass has produced nothing.  The [nmerges] of each pass are returned. *)
Fixpoint ms_loop (fuel : nat) (insize : nat) (l : list A) (passes : list nat)
  : M St (list A * list nat) :=
  r <- ms_pass (length l) insize l ;;
  let '(l', nmerges) := r in
  match l' with
  | [] => raise NullDeref
  | _ :: _ =>
      if (nmerges <=? 1)%nat then ret (l', passes ++ [nmerges])
      else match fuel with
           | O => raise OutOfFuel
           | S f => ms_loop f (2 * insize) l' (passes ++ [nmerges])
           end
  end.

Definition mergesort (l : list A) : M St (list A * list nat) :=
  ms_loop (length l) 1 l [].
End MergeSort.

(** The nodes of the chain starting at [lst], in order. *)
Fixpoint walk (fuel : nat) (lst : option nat) : M heap (list nat) :=
  match lst with
  | None => ret []
  | Some n =>
      match fuel with
      | O => raise OutOfFuel
      | S f => nd <- load_node lst ;; ns <- walk f (next nd) ;; ret (n :: ns)
      end
  end.

Definition chain_nodes (lst : option nat) : M heap (list nat) :=
  fuel <- node_count ;; walk fuel lst.

(** The [next] fields written by the passes: each node points to the one after
    it in the final order, and the last one to NULL. *)
Fixpoint relink_from (ns : list nat) : M heap unit :=
  match ns with
  | [] => ret tt
  | [n] => set_next (Some n) None
  | n :: ((m :: _) as rest) => set_next (Some n) (Some m) ;;; relink_from rest
  end.

Definition relink (ns : list nat) : M heap (option nat) :=
  match ns with
  | [] => ret None
  | n :: _ => relink_from ns ;;; ret (Some n)
  end.

(** [cmp(p->info, q->info, res)] on two nodes. *)
Definition node_cmp {St} `{HeapState St} (cmp : nat -> nat -> M St Z) (p q : nat) : M St Z :=
  pn <- lift (load_node (Some p)) ;;
  qn <- lift (load_node (Some q)) ;;
  cmp (info pn) (info qn).

Definition core_list_mergesort {St} `{HeapState St} (cmp : nat -> nat -> M St Z)
    (lst : option nat) : M St (option nat) :=
  ns <- lift (chain_nodes lst) ;;
  r <- mergesort (node_cmp cmp) ns ;;
  lift (relink (fst r)).

(** [cmp_idx] with [res == NULL]: restores the low byte of [data16] from its
    backup byte in both records, then compares [idx]. *)
Definition restore_data16 (d : Z) : Z :=
  to_s16 (Z.lor (Z.land d 65280) (Z.land 255 (Z.shiftr d 8))).

Definition cmp_idx_null (a b : nat) : M heap Z :=
  da <- load_data a ;;
  store_data a (mk_data (restore_data16 (data16 da)) (idx da)) ;;;
  db <- load_data b ;;
  store_data b (mk_data (restore_data16 (data16 db)) (idx db)) ;;;
  da' <- load_data a ;;
  db' <- load_data b ;;
  ret (idx da' - idx db').

(** ** [core_list_init] *)

(** [size = (blksize / per_item) - 2] in [ee_u32], with
    [per_item = 16 + sizeof(struct list_data_s)] and a 4-byte record. *)
Definition list_size (blksize : Z) : Z := to_u32 (blksize / (16 + 4) - 2).

(** The caller's block seen as the two arrays [memblock[0..size)] and
    [datablock[0..size)], with arbitrary contents. *)
Definition region (size : nat) : heap :=
  mk_heap (list_to_map (map (fun n => (n, mk_head None 0%nat)) (seq 0 size)))
          (list_to_map (map (fun r => (r, mk_data 0 0)) (seq 0 size))).

Definition list_region (blksize : Z) : heap := region (Z.to_nat (list_size blksize)).

(** The [for (i = 0; i < size; i++)] insertion loop. *)
Fixpoint init_insert_loop (lst : option nat) (seed : Z) (i : Z) (count : nat)
    (idx0 : Z) (memblock datablock memblock_end datablock_end : nat)
  : M heap (nat * nat) :=
  match count with
  | O => ret (memblock, datablock)
  | S c =>
      let datpat := Z.land (to_u16 (Z.lxor (to_u32 seed) i)) 15 in
      let dat := Z.lor (Z.shiftl datpat 3) (Z.land i 7) in
      let inf := mk_data (to_s16 (Z.lor (Z.shiftl dat 8) dat)) idx0 in
      r <- core_list_insert_new lst inf memblock datablock memblock_end datablock_end ;;
      let '(_, mb, db) := r in
      init_insert_loop lst seed (to_u32 (i + 1)) c idx0 mb db memblock_end datablock_end
  end.

(** The [while (finder->next != NULL)] loop that assigns [idx]. *)
Fixpoint init_idx_loop (fuel : nat) (seed size : Z) (finder : option nat) (i : Z)
  : M heap unit :=
  match fuel with
  | O => raise OutOfFuel
  | S f =>
      nd <- load_node finder ;;
      match next nd with
      | None => ret tt
      | Some _ =>
          if i <? size / 5 then
            d <- load_data (info nd) ;;
            store_data (info nd) (mk_data (data16 d) (to_s16 i)) ;;;
            init_idx_loop f seed size (next nd) (to_u32 (i + 1))
          else
            let pat := to_u16 (Z.lxor i (to_u32 seed)) in
            let i' := to_u32 (i + 1) in
            d <- load_data (info nd) ;;
            store_data (info nd)
              (mk_data (data16 d) (to_s16 (Z.land 16383 (Z.lor (Z.shiftl (Z.land i' 7) 8) pat)))) ;;;
            init_idx_loop f seed size (next nd) i'
      end
  end.

(** The body of [core_list_init] up to the final sort: the list as built and
    indexed, before [core_list_mergesort(list, cmp_idx, NULL)]. *)
Definition core_list_build (blksize seed : Z) : M heap (option nat) :=
  let size := list_size blksize in
  let memblock_end := Z.to_nat size in
  let datablock_end := Z.to_nat size in
  let lst := Some 0%nat in
  set_next lst None ;;;
  set_info lst 0%nat ;;;
  store_data 0%nat (mk_data (to_s16 32896) 0) ;;;
  let tail := mk_data (to_s16 65535) 32767 in
  r <- core_list_insert_new lst tail 1 1 memblock_end datablock_end ;;
  let '(_, mb, db) := r in
  c <- init_insert_loop lst seed 0 (Z.to_nat size) (idx tail) mb db memblock_end datablock_end ;;
  hd <- load_node lst ;;
  fuel <- node_count ;;
  init_idx_loop fuel seed size (next hd) 1 ;;;
  ret lst.

Definition core_list_init (blksize seed : Z) : M heap (option nat) :=
  lst <- core_list_build blksize seed ;;
  core_list_mergesort cmp_idx_null lst.

(** The (idx, data16) sequence of the chain starting at [lst]. *)
Definition list_seq (lst : option nat) : M heap (list (Z * Z)) :=
  ns <- chain_nodes lst ;;
  fold_right (fun n acc =>
      nd <- load_node (Some n) ;; d <- load_data (info nd) ;;
      rest <- acc ;; ret ((idx d, data16 d) :: rest)) (ret []) ns.

(** ** The matrix kernel (core_matrix.c)

    [MATDAT] is [ee_s16] and [MATRES] is [ee_s32]; signed overflow wraps.
    [HAS_FLOAT] is defined (the [#ifndef HAS_FLOAT] variant of [matrix_clip]
    does not compile), so [matrix_clip], [matrix_big] and [bit_extract] are
    the identity.  A matrix is its row-major array of [N*N] cells. *)

Definition cell (m : list Z) (k : nat) : Z := nth k m 0.

(** Replace the cells [k] with [f k] for [k < n], keeping the others. *)
Fixpoint write_cells (f : nat -> Z) (k n : nat) (m : list Z) : list Z :=
  match m with
  | [] => []
  | x :: m' => (if (k <? n)%nat then f k else x) :: write_cells f (S k) n m'
  end.

Definition matrix_add_const (N : nat) (A : list Z) (val : Z) : list Z :=
  write_cells (fun k => to_s16 (cell A k + val)) 0 (N * N) A.

Definition matrix_mul_const (N : nat) (C A : list Z) (val : Z) : list Z :=
  write_cells (fun k => to_s32 (cell A k * val)) 0 (N * N) C.

(** [for (j = 0; j < N; j++) acc += (MATRES)x(j) * (MATRES)y(j)]. *)
Fixpoint dot (x y : nat -> Z) (j n : nat) (acc : Z) : Z :=
  match n with
  | O => acc
  | S n' => dot x y (S j) n' (to_s32 (acc + x j * y j))
  end.

Definition matrix_mul_vect (N : nat) (C A B : list Z) : list Z :=
  write_cells (fun i => dot (fun j => cell A (i * N + j)) (fun j => cell B j) 0 N 0) 0 N C.

Definition matrix_mul_matrix (N : nat) (C A B : list Z) : list Z :=
  write_cells (fun k =>
      let i := (k / N)%nat in let j := (k mod N)%nat in
      dot (fun l => cell A (i * N + l)) (fun l => cell B (l * N + j)) 0 N 0) 0 (N * N) C.

(** The accumulation of the inner loop is commented out in this version:
    each cell is set to 0 and the product [tmp] is not used. *)
Definition matrix_mul_matrix_bitextract (N : nat) (C A B : list Z) : list Z :=
  write_cells (fun _ => 0) 0 (N * N) C.

Fixpoint matrix_sum_loop (cs : list Z) (clipval tmp prev ret_ : Z) : Z :=
  match cs with
  | [] => ret_
  | cur :: cs' =>
      let tmp' := to_s32 (tmp + cur) in
      if tmp' >? clipval then matrix_sum_loop cs' clipval 0 cur (to_s16 (ret_ + 10))
      else matrix_sum_loop cs' clipval tmp' cur (to_s16 (ret_ + (if cur >? prev then 1 else 0)))
  end.

Definition matrix_sum (N : nat) (C : list Z) (clipval : Z) : Z :=
  matrix_sum_loop (firstn (N * N) C) clipval 0 0 0.

Record mat_params := mk_mat { mat_N : nat; mat_A : list Z; mat_B : list Z; mat_C : list Z }.

(** [matrix_test]: the crc and the new [A] and [C]. *)
Definition matrix_test (N : nat) (C A B : list Z) (val : Z) : Z * list Z * list Z :=
  let clipval := val in
  let A1 := matrix_add_const N A val in
  let C1 := matrix_mul_const N C A1 val in
  let crc1 := crc16 (matrix_sum N C1 clipval) 0 in
  let C2 := matrix_mul_vect N C1 A1 B in
  let crc2 := crc16 (matrix_sum N C2 clipval) crc1 in
  let C3 := matrix_mul_matrix N C2 A1 B in
  let crc3 := crc16 (matrix_sum N C3 clipval) crc2 in
  let C4 := matrix_mul_matrix_bitextract N C3 A1 B in
  let crc4 := crc16 (matrix_sum N C4 clipval) crc3 in
  let A2 := matrix_add_const N A1 (to_s16 (- val)) in
  (to_s16 crc4, A2, C4).

Definition core_bench_matrix (p : mat_params) (seed crc : Z) : Z * mat_params :=
  let '(r, A', C') := matrix_test (mat_N p) (mat_C p) (mat_A p) (mat_B p) (to_s16 seed) in
  (crc16 r crc, mk_mat (mat_N p) A' (mat_B p) C').

(** [while (j < blksize) { i++; j = i * i * 2 * 4; }]. *)
Fixpoint matrix_dim_loop (fuel : nat) (blksize i j : Z) : Z :=
  match fuel with
  | O => i - 1
  | S f => if j <? blksize then matrix_dim_loop f blksize (i + 1) (to_u32 ((i + 1) * (i + 1) * 2 * 4))
           else i - 1
  end.

(** The double loop filling [B] and [A]: cell [k = i*N+j] uses [order = k+1]. *)
Fixpoint matrix_fill (count : nat) (order seed : Z) (A B : list Z) : list Z * list Z :=
  match count with
  | O => (rev A, rev B)
  | S c =>
      let seed' := Z.rem (order * seed) 65536 in
      let valb := to_s16 (seed' + order) in
      let vala := to_s16 (valb + order) in
      matrix_fill c (order + 1) seed' (vala :: A) (valb :: B)
  end.

Definition core_init_matrix (blksize seed : Z) : mat_params :=
  let seed := if seed =? 0 then 1 else seed in
  let N := Z.to_nat (matrix_dim_loop (S (Z.to_nat blksize)) blksize 0 0) in
  let '(A, B) := matrix_fill (N * N) 1 seed [] [] in
  mk_mat N A B (repeat 0 (N * N)).

(** ** The state-machine kernel (core_state.c) *)

Inductive core_state :=
  CORE_START | CORE_INVALID | CORE_S1 | CORE_S2 | CORE_INT | CORE_FLOAT
| CORE_EXPONENT | CORE_SCIENTIFIC.

(** The enumerator values, in declaration order ([NUM_CORE_STATES = 8]). *)
Definition state_num (s : core_state) : nat :=
  match s with
  | CORE_START => 0 | CORE_INVALID => 1 | CORE_S1 => 2 | CORE_S2 => 3
  | CORE_INT => 4 | CORE_FLOAT => 5 | CORE_EXPONENT => 6 | CORE_SCIENTIFIC => 7
  end.

(** [counts[s]++] on an array of [ee_u32]. *)
Definition bump (s : core_state) (counts : list Z) : list Z :=
  <[state_num s := to_u32 (cell counts (state_num s) + 1)]> counts.

Definition ee_isdigit (c : Z) : bool := (48 <=? c) && (c <=? 57).

(** One iteration of the [switch (state)]: the next state and the counts. *)
Definition state_step (state : core_state) (c : Z) (tc : list Z) : core_state * list Z :=
  match state with
  | CORE_START =>
      let tc1 := bump CORE_START in
      if ee_isdigit c then (CORE_INT, tc1 tc)
      else if (c =? 43) || (c =? 45) then (CORE_S1, tc1 tc)
      else if c =? 46 then (CORE_FLOAT, tc1 tc)
      else (CORE_INVALID, tc1 (bump CORE_INVALID tc))
  | CORE_S1 =>
      if ee_isdigit c then (CORE_INT, bump CORE_S1 tc)
      else if c =? 46 then (CORE_FLOAT, bump CORE_S1 tc)
      else (CORE_INVALID, bump CORE_S1 tc)
  | CORE_INT =>
      if c =? 46 then (CORE_FLOAT, bump CORE_INT tc)
      else if negb (ee_isdigit c) then (CORE_INVALID, bump CORE_INT tc)
      else (state, tc)
  | CORE_FLOAT =>
      if (c =? 69) || (c =? 101) then (CORE_S2, bump CORE_FLOAT tc)
      else if negb (ee_isdigit c) then (CORE_INVALID, bump CORE_FLOAT tc)
      else (state, tc)
  | CORE_S2 =>
      if (c =? 43) || (c =? 45) then (CORE_EXPONENT, bump CORE_S2 tc)
      else (CORE_INVALID, bump CORE_S2 tc)
  | CORE_EXPONENT =>
      if ee_isdigit c then (CORE_SCIENTIFIC, bump CORE_EXPONENT tc)
      else (CORE_INVALID, bump CORE_EXPONENT tc)
  | CORE_SCIENTIFIC =>
      if negb (ee_isdigit c) then (CORE_INVALID, bump CORE_INVALID tc)
      else (state, tc)
  | CORE_INVALID => (state, tc)
  end.

(** [core_state_transition]: the input is the rest of the block from [*instr];
    returns the rest after the token, the final state and the counts. *)
Fixpoint core_state_transition (str : list Z) (state : core_state) (tc : list Z)
  : list Z * core_state * list Z :=
  match str with
  | [] => (str, state, tc)
  | c :: rest =>
      if (c =? 0) || (match state with CORE_INVALID => true | _ => false end)
      then (str, state, tc)
      else if c =? 44 then (rest, state, tc)
      else let '(state', tc') := state_step state c tc in
           core_state_transition rest state' tc'
  end.

(** [while ( *p != 0) { fstate = core_state_transition(&p, track_counts);
    final_counts[fstate]++; }] *)
Fixpoint state_scan (fuel : nat) (p : list Z) (final track : list Z) : list Z * list Z :=
  match fuel with
  | O => (final, track)
  | S f =>
      match p with
      | [] => (final, track)
      | c :: _ =>
          if c =? 0 then (final, track)
          else let '(p', fstate, track') := core_state_transition p CORE_START track in
               state_scan f p' (bump fstate final) track'
      end
  end.

(** [for (p = memblock; p < memblock + blksize; p += step)
       if ( *p != ',') *p ^= (ee_u8)x;] *)
Fixpoint corrupt (k : Z) (blksize step x : Z) (mem : list Z) : list Z :=
  match mem with
  | [] => []
  | c :: mem' =>
      (if (k mod step =? 0) && (k <? blksize) && negb (c =? 44)
       then Z.lxor c (to_u8 x) else c) :: corrupt (k + 1) blksize step x mem'
  end.

Fixpoint crc_counts (final track : list Z) (crc : Z) : Z :=
  match final, track with
  | f :: final', t :: track' => crc_counts final' track' (crcu32 t (crcu32 f crc))
  | _, _ => crc
  end.

Definition core_bench_state (blksize : Z) (mem : list Z) (seed1 seed2 step crc : Z)
  : Z * list Z :=
  let zero := repeat 0 8 in
  let '(final1, track1) := state_scan (length mem) mem zero zero in
  let mem1 := corrupt 0 blksize step seed1 mem in
  let '(final2, track2) := state_scan (length mem1) mem1 final1 track1 in
  let mem2 := corrupt 0 blksize step seed2 mem1 in
  (crc_counts final2 track2 crc, mem2).

Definition bytes_of (s : String.string) : list Z :=
  map (fun a => Z.of_nat (Ascii.nat_of_ascii a)) (String.list_ascii_of_string s).

Definition intpat (k : Z) : list Z :=
  bytes_of (match k with 0 => "5012" | 1 => "1234" | 2 => "-874" | _ => "+122" end)%string.
Definition floatpat (k : Z) : list Z :=
  bytes_of (match k with 0 => "35.54400" | 1 => ".1234500" | 2 => "-110.700"
                    | _ => "+0.64400" end)%string.
Definition scipat (k : Z) : list Z :=
  bytes_of (match k with 0 => "5.500e+3" | 1 => "-.123e-2" | 2 => "-87e+832"
                    | _ => "+0.6e-12" end)%string.
Definition errpat (k : Z) : list Z :=
  bytes_of (match k with 0 => "T0.3e-1F" | 1 => "-T.T++Tq" | 2 => "1T3.4e4z"
                    | _ => "34.0e-T^" end)%string.

(** The [switch (seed & 0x7)] of [core_init_state]: [buf] and [next]. *)
Definition state_pattern (seed : Z) : list Z * Z :=
  let k := Z.land (Z.shiftr seed 3) 3 in
  match Z.land seed 7 with
  | 0 | 1 | 2 => (intpat k, 4)
  | 3 | 4 => (floatpat k, 8)
  | 5 | 6 => (scipat k, 8)
  | _ => (errpat k, 8)
  end.

(** [while ((total + next + 1) < size)]: the bytes written so far. *)
Fixpoint init_state_loop (fuel : nat) (size total next : Z) (buf : list Z) (seed : Z)
    (out : list Z) : list Z :=
  match fuel with
  | O => out
  | S f =>
      if total + next + 1 <? size then
        let out' := if next >? 0 then out ++ firstn (Z.to_nat next) buf ++ [44] else out in
        let total' := if next >? 0 then total + next + 1 else total in
        let seed' := to_s16 (seed + 1) in
        let '(buf', next') := state_pattern seed' in
        init_state_loop f size total' next' buf' seed' out'
      else out
  end.

Definition core_init_state (size seed : Z) : list Z :=
  let out := init_state_loop (Z.to_nat size) (to_u32 (size - 1)) 0 0 [] seed [] in
  out ++ repeat 0 (Z.to_nat size - length out).

(** ** The benchmark context ([core_results]) *)

Record core_results := mk_res {
  seed1 : Z; seed2 : Z; seed3 : Z; res_size : Z;
  res_list : option nat;       (* res->list *)
  res_mat : mat_params;        (* res->mat *)
  state_mem : list Z;          (* the block res->memblock[3] *)
  crc : Z; crclist : Z; crcmatrix : Z; crcstate : Z }.

Definition set_crc (r : core_results) (v : Z) : core_results :=
  mk_res (seed1 r) (seed2 r) (seed3 r) (res_size r) (res_list r) (res_mat r)
    (state_mem r) v (crclist r) (crcmatrix r) (crcstate r).
Definition set_crclist (r : core_results) (v : Z) : core_results :=
  mk_res (seed1 r) (seed2 r) (seed3 r) (res_size r) (res_list r) (res_mat r)
    (state_mem r) (crc r) v (crcmatrix r) (crcstate r).
Definition set_state_run (r : core_results) (mem : list Z) (cs : Z) : core_results :=
  mk_res (seed1 r) (seed2 r) (seed3 r) (res_size r) (res_list r) (res_mat r)
    mem (crc r) (crclist r) (crcmatrix r) cs.
Definition set_matrix_run (r : core_results) (m : mat_params) (cm : Z) : core_results :=
  mk_res (seed1 r) (seed2 r) (seed3 r) (res_size r) (res_list r) m
    (state_mem r) (crc r) (crclist r) cm (crcstate r).

Record bench := mk_bench { bheap : heap; bres : core_results }.

#[global] Instance bench_HeapState : HeapState bench :=
  { get_heap := bheap; set_heap h b := mk_bench h (bres b) }.

Definition get_res : M bench core_results := fun b => inl (bres b, b).
Definition put_res (r : core_results) : M bench unit := fun b => inl (tt, mk_bench (bheap b) r).

(** [calc_func(&rec->data16, res)]: [pdata] is the record. *)
Definition calc_func (pdata : nat) : M bench Z :=
  d <- lift (load_data pdata) ;;
  let data := data16 d in
  let optype := Z.land (Z.shiftr data 7) 1 in
  if optype =? 1 then ret (Z.land data 127)
  else
    let flag := Z.land data 7 in
    let dtype0 := Z.land (Z.shiftr data 3) 15 in
    let dtype := Z.lor dtype0 (Z.shiftl dtype0 4) in
    res <- get_res ;;
    r <- (match flag with
          | 0 =>
              let dtype' := if dtype <? 34 then 34 else dtype in
              let '(c, mem') := core_bench_state (res_size res) (state_mem res)
                                  (seed1 res) (seed2 res) dtype' (crc res) in
              let retval := to_s16 c in
              put_res (set_state_run res mem'
                         (if crcstate res =? 0 then to_u16 retval else crcstate res)) ;;;
              ret retval
          | 1 =>
              let '(c, m') := core_bench_matrix (res_mat res) dtype (crc res) in
              let retval := to_s16 c in
              put_res (set_matrix_run res m'
                         (if crcmatrix res =? 0 then to_u16 retval else crcmatrix res)) ;;;
              ret retval
          | _ => ret data
          end) ;;
    res' <- get_res ;;
    put_res (set_crc res' (crcu16 r (crc res'))) ;;;
    let retval := Z.land r 127 in
    d' <- lift (load_data pdata) ;;
    lift (store_data pdata
            (mk_data (to_s16 (Z.lor (Z.lor (Z.land data 65280) 128) retval)) (idx d'))) ;;;
    ret retval.

Definition cmp_complex (a b : nat) : M bench Z :=
  val1 <- calc_func a ;;
  val2 <- calc_func b ;;
  ret (val1 - val2).

(** ** [core_bench_list] *)

(** The [for (i = 0; i < find_num; i++)] loop; its state is
    [(list, info, retval, found, missed)]. *)
Fixpoint bench_find_loop (count : nat) (i : Z) (lst : option nat) (inf : list_data)
    (retval found missed : Z) : M bench (option nat * list_data * Z * Z * Z) :=
  match count with
  | O => ret (lst, inf, retval, found, missed)
  | S c =>
      let inf1 := mk_data (to_s16 (Z.land i 255)) (idx inf) in
      this_find <- lift (core_list_find lst inf1) ;;
      lst' <- lift (core_list_reverse lst) ;;
      r <- (match this_find with
            | None =>
                hd <- lift (load_node lst') ;;
                nx <- lift (load_node (next hd)) ;;
                d <- lift (load_data (info nx)) ;;
                ret (to_u16 (retval + Z.land (Z.shiftr (data16 d) 8) 1), found,
                     to_u16 (missed + 1))
            | Some _ =>
                tf <- lift (load_node this_find) ;;
                d <- lift (load_data (info tf)) ;;
                let retval' := if Z.land (data16 d) 1 =? 1
                               then to_u16 (retval + Z.land (Z.shiftr (data16 d) 9) 1)
                               else retval in
                match next tf with
                | None => ret (retval', to_u16 (found + 1), missed)
                | Some _ =>
                    let finder := next tf in
                    fd <- lift (load_node finder) ;;
                    lift (set_next this_find (next fd)) ;;;
                    hd <- lift (load_node lst') ;;
                    lift (set_next finder (next hd)) ;;;
                    lift (set_next lst' finder) ;;;
                    ret (retval', to_u16 (found + 1), missed)
                end
            end) ;;
      let '(retval1, found1, missed1) := r in
      let inf2 := if idx inf1 >=? 0 then mk_data (data16 inf1) (to_s16 (idx inf1 + 1)) else inf1 in
      bench_find_loop c (to_s16 (i + 1)) lst' inf2 retval1 found1 missed1
  end.

(** [while (finder) { retval = crc16(list->info->data16, retval);
    finder = finder->next; }] *)
Fixpoint crc_scan (fuel : nat) (lst finder : option nat) (retval : Z) : M heap Z :=
  match finder with
  | None => ret retval
  | Some _ =>
      match fuel with
      | O => raise OutOfFuel
      | S f =>
          hd <- load_node lst ;;
          d <- load_data (info hd) ;;
          let retval' := crc16 (data16 d) retval in
          fd <- load_node finder ;;
          crc_scan f lst (next fd) retval'
      end
  end.

Definition crc_scan_list (lst finder : option nat) (retval : Z) : M heap Z :=
  fuel <- node_count ;; crc_scan fuel lst finder retval.

Definition cmp_idx_bench (a b : nat) : M bench Z := lift (cmp_idx_null a b).

Definition core_bench_list (finder_idx : Z) : M bench Z :=
  res <- get_res ;;
  let lst := res_list res in
  let find_num := seed3 res in
  (* [info.data16] is read after the loop only; it is uninitialised when
     [find_num <= 0], taken as 0 here *)
  r <- bench_find_loop (Z.to_nat find_num) 0 lst (mk_data 0 finder_idx) 0 0 0 ;;
  let '(lst1, inf, retval0, found, missed) := r in
  let retval1 := to_u16 (retval0 + found * 4 - missed) in
  lst2 <- (if finder_idx >? 0 then core_list_mergesort cmp_complex lst1 else ret lst1) ;;
  hd <- lift (load_node lst2) ;;
  remover <- lift (core_list_remove (next hd)) ;;
  finder0 <- lift (core_list_find lst2 inf) ;;
  hd' <- lift (load_node lst2) ;;
  let finder := match finder0 with None => next hd' | Some _ => finder0 end in
  retval2 <- lift (crc_scan_list lst2 finder retval1) ;;
  hd'' <- lift (load_node lst2) ;;
  lift (core_list_undo_remove remover (next hd'')) ;;;
  lst3 <- core_list_mergesort cmp_idx_bench lst2 ;;
  hd3 <- lift (load_node lst3) ;;
  lift (crc_scan_list lst3 (next hd3) retval2).

(** ** The driver: [iterate] and the initialisation done by [main] *)

Fixpoint iterate_loop (count : nat) (i : Z) : M bench unit :=
  match count with
  | O => ret tt
  | S c =>
      crc1 <- core_bench_list 1 ;;
      res <- get_res ;; put_res (set_crc res (crcu16 crc1 (crc res))) ;;;
      crc2 <- core_bench_list (-1) ;;
      res' <- get_res ;; put_res (set_crc res' (crcu16 crc2 (crc res'))) ;;;
      (if i =? 0 then res'' <- get_res ;; put_res (set_crclist res'' (crc res''))
       else ret tt) ;;;
      iterate_loop c (i + 1)
  end.

Definition iterate (iterations : Z) : M bench unit :=
  res <- get_res ;;
  put_res (mk_res (seed1 res) (seed2 res) (seed3 res) (res_size res) (res_list res)
             (res_mat res) (state_mem res) 0 0 0 0) ;;;
  iterate_loop (Z.to_nat iterations) 0.

(** [main]'s data initialisation for the three algorithms, each given a
    block of [size] bytes: [core_list_init], [core_init_matrix] and
    [core_init_state]. *)
Definition coremark_init (s1 s2 s3 size : Z) : (bench) + fault :=
  match core_list_init size s1 (list_region size) with
  | inr e => inr e
  | inl (lst, h) =>
      let m := core_init_matrix size (to_s32 (Z.lor s1 (Z.shiftl s2 16))) in
      let mem := core_init_state size s1 in
      inl (mk_bench h (mk_res s1 s2 s3 size lst m mem 0 0 0 0))
  end.

(** The [crclist] of a run of [iterations] iterations. *)
Definition coremark_crclist (s1 s2 s3 size iterations : Z) : Z + fault :=
  match coremark_init s1 s2 s3 size with
  | inr e => inr e
  | inl b => match iterate iterations b with
             | inl (_, b') => inl (crclist (bres b'))
             | inr e => inr e
             end
  end.

(** ** Predicates used by the statements *)

(** [chain h p ns]: following [next] from [p] in [h] visits the existing nodes
    [ns], in order, and ends at NULL. *)
Inductive chain (h : heap) : option nat -> list nat -> Prop :=
| chain_nil : chain h None []
| chain_cons (n : nat) (nd : list_head) (ns : list nat) :
    nodes h !! n = Some nd -> chain h (next nd) ns -> chain h (Some n) (n :: ns).

(** The record of node [n] ([n->info]). *)
Definition rec_of (h : heap) (n : nat) : option list_data :=
  match nodes h !! n with
  | Some nd => datas h !! info nd
  | None => None
  end.

Definition has_record (h : heap) (n : nat) : Prop := exists d, rec_of h n = Some d.

(** The search criterion of [core_list_find]: by [idx] when [info->idx >= 0],
    otherwise by the low byte of [data16]. *)
Definition find_matches (crit d : list_data) : Prop :=
  if Z.geb (idx crit) 0 then idx d = idx crit
  else Z.land (data16 d) 255 = data16 crit.

(** A [data16] whose low byte equals its backup byte (what [cmp_idx] restores). *)
Definition normalized (d : list_data) : Prop := restore_data16 (data16 d) = data16 d.

(** The list [l] cut in consecutive runs of length [k] (the last may be
    shorter), each sorted by [le]. *)
Inductive runs_sorted {A : Type} (le : A -> A -> Prop) (k : nat) : list A -> Prop :=
| runs_nil : runs_sorted le k []
| runs_last (r : list A) : r <> [] -> (length r <= k)%nat -> Sorted le r -> runs_sorted le k r
| runs_cons (r rest : list A) :
    length r = k -> Sorted le r -> runs_sorted le k rest -> runs_sorted le k (r ++ rest).

(** The merge performed by [ms_merge] when the comparator returns [f a b]:
    the left element is taken when [f a b <= 0]. *)
Fixpoint merge_by {A : Type} (f : A -> A -> Z) (p : list A) : list A -> list A :=
  match p with
  | [] => fun q => q
  | a :: p' =>
      fix merge_q (q : list A) : list A :=
        match q with
        | [] => a :: p'
        | b :: q' => if f a b <=? 0 then a :: merge_by f p' q else b :: merge_q q'
        end
  end.

(** The order a comparator [f] defines, and its equivalence classes. *)
Definition le_by {A : Type} (f : A -> A -> Z) (a b : A) : Prop := f a b <= 0.
Definition eqv_by {A : Type} (f : A -> A -> Z) (x y : A) : bool :=
  (f x y <=? 0) && (f y x <=? 0).

(** The list of [core_list_init] after the head, the tail and [c] more nodes
    have been inserted in a block of [sz] cells: the chain is the head [0],
    the nodes [c+1, ..., 2] in that order and the tail [1]; each node used so
    far owns the record of the same index, whose [data16] is normalized; the
    cells not yet used exist. *)
Definition built_inv (h : heap) (sz c : nat) : Prop :=
  chain h (Some 0%nat) (0%nat :: rev (seq 2 c) ++ [1%nat]) /\
  (forall j, (j < 2 + c)%nat -> exists nx, nodes h !! j = Some (mk_head nx j)) /\
  (forall j, (j < 2 + c)%nat -> exists d, datas h !! j = Some d /\ normalized d) /\
  (forall j, (2 + c <= j < sz)%nat -> is_Some (nodes h !! j) /\ is_Some (datas h !! j)).

(** The [idx] the walk of [core_list_init] gives the node it reaches with the
    counter at [i] (no wrap-around of the counter). *)
Definition assigned_idx (size seed i : Z) : Z :=
  if i <? size / 5 then to_s16 i
  else to_s16 (Z.land 16383 (Z.lor (Z.shiftl (Z.land (to_u32 (i + 1)) 7) 8)
                                   (to_u16 (Z.lxor i (to_u32 seed))))).

(** The [idx] of the record of node [n] ([0] when it has none). *)
Definition idx_of (h : heap) (n : nat) : Z :=
  match rec_of h n with Some d => idx d | None => 0 end.

(** The [(idx, data16)] entry of node [n], as [list_seq] reads it. *)
Definition seq_entry (h : heap) (n : nat) : Z * Z :=
  match rec_of h n with Some d => (idx d, data16 d) | None => (0, 0) end.

(** The two orders of operations compared for a built list: reverse it and
    sort it by [cmp_idx] (with [res == NULL]), or sort it directly; each
    followed by reading its [(idx, data16)] sequence. *)
Definition sort_reversed (lst : option nat) : M heap (list (Z * Z)) :=
  r <- core_list_reverse lst ;;
  s <- core_list_mergesort cmp_idx_null r ;;
  list_seq s.

Definition sort_direct (lst : option nat) : M heap (list (Z * Z)) :=
  s <- core_list_mergesort cmp_idx_null lst ;;
  list_seq s.

(** A three-node list [0 -> 1 -> 2] with the records [0], [1], [2]: head,
    one interior node and tail, as [core_list_init] lays them out. *)
Definition sample_heap : heap :=
  mk_heap (list_to_map [(0%nat, mk_head (Some 1%nat) 0%nat); (1%nat, mk_head (Some 2%nat) 1%nat);
                        (2%nat, mk_head None 2%nat)])
          (list_to_map [(0%nat, mk_data (-32640) 0); (1%nat, mk_data 2056 1);
                        (2%nat, mk_data (-1) 32767)]).

(** A benchmark context over [sample_heap] with an empty matrix and state block. *)
Definition sample_bench : bench :=
  mk_bench sample_heap (mk_res 0 0 0 0 None (mk_mat 0 [] [] []) [] 0 0 0 0).

(** ** Proofs *)

Ltac solve_chain :=
  repeat (eapply chain_cons; [reflexivity|]; cbn [next]); apply chain_nil.


(** *** Chains *)

Lemma chain_suffix (h : heap) (pre post : list nat) (n : nat) (p : option nat) :
  chain h p (pre ++ n :: post) -> chain h (Some n) (n :: post).
Proof.
  revert p. induction pre as [|a pre IH]; intros p Hc; simpl in Hc.
  - inversion Hc; subst. econstructor; eauto.
  - inversion Hc; subst. eapply IH; eauto.
Qed.

Lemma chain_det (h : heap) (p : option nat) (l1 l2 : list nat) :
  chain h p l1 -> chain h p l2 -> l1 = l2.
Proof.
  intros H1. revert l2. induction H1 as [|n nd ns Hn Hc IH]; intros l2 H2.
  - inversion H2; auto.
  - inversion H2 as [|n' nd' ns' Hn' Hc']; subst.
    rewrite Hn in Hn'. injection Hn' as <-. f_equal. auto.
Qed.

Lemma chain_NoDup (h : heap) (p : option nat) (ns : list nat) :
  chain h p ns -> NoDup ns.
Proof.
  induction 1 as [|n nd ns Hn Hc IH]; constructor; auto.
  intros Hin. apply list_elem_of_In, in_split in Hin as (pre & post & ->).
  pose proof (chain_suffix _ _ _ _ _ Hc) as Hs.
  assert (Hfull : chain h (Some n) (n :: pre ++ n :: post)) by (econstructor; eauto).
  pose proof (chain_det _ _ _ _ Hfull Hs) as E. injection E as E.
  apply (f_equal (@length nat)) in E. rewrite length_app in E. simpl in E. lia.
Qed.

Lemma chain_in_nodes (h : heap) (p : option nat) (ns : list nat) (n : nat) :
  chain h p ns -> In n ns -> exists nd, nodes h !! n = Some nd.
Proof.
  induction 1 as [|m nd ns Hm Hc IH]; simpl; [tauto|].
  intros [<-|Hin]; eauto.
Qed.

Lemma chain_length (h : heap) (p : option nat) (ns : list nat) :
  chain h p ns -> (length ns <= size (nodes h))%nat.
Proof.
  intros Hc. rewrite <- length_map_to_list.
  rewrite <- (length_map fst (map_to_list (nodes h))).
  apply NoDup_incl_length; [apply NoDup_ListNoDup; eapply chain_NoDup; eauto|].
  intros n Hin. destruct (chain_in_nodes _ _ _ _ Hc Hin) as [nd Hnd].
  apply in_map_iff. exists (n, nd). split; [reflexivity|].
  apply list_elem_of_In. apply elem_of_map_to_list. exact Hnd.
Qed.

Lemma rec_of_inv (h : heap) (n : nat) (d : list_data) :
  rec_of h n = Some d -> exists nd, nodes h !! n = Some nd /\ datas h !! info nd = Some d.
Proof.
  unfold rec_of. destruct (nodes h !! n) as [nd|]; [eauto|discriminate].
Qed.

(** *** The CRC scans of [core_bench_list] *)

Lemma crc_scan_chain (h : heap) (hd : nat) (d : list_data) (finder : option nat)
    (ns : list nat) :
  rec_of h hd = Some d -> chain h finder ns ->
  forall fuel retval, (length ns <= fuel)%nat ->
  crc_scan fuel (Some hd) finder retval h
  = inl (Nat.iter (length ns) (crc16 (data16 d)) retval, h).
Proof.
  intros Hd Hc. apply rec_of_inv in Hd as (hnd & Hh & Hdd).
  induction Hc as [|n nd ns Hn Hc IH]; intros fuel retval Hf.
  - destruct fuel; reflexivity.
  - destruct fuel as [|f]; simpl in Hf; [lia|].
    cbn [crc_scan]. unfold bind, load_node, load_data.
    rewrite Hh, Hdd, Hn. rewrite IH by lia.
    simpl length. rewrite Nat.iter_succ_r. reflexivity.
Qed.

(** *** [core_list_find] *)

Lemma find_pred_spec (crit d : list_data) :
  find_pred crit d = true <-> find_matches crit d.
Proof.
  unfold find_pred, find_matches.
  destruct (idx crit >=? 0); apply Z.eqb_eq.
Qed.

Lemma find_loop_chain (h : heap) (stop : list_data -> bool) (p : option nat) (ns : list nat) :
  chain h p ns -> Forall (has_record h) ns ->
  forall fuel, (length ns <= fuel)%nat ->
  exists r vis,
    find_loop fuel stop p h = inl ((r, vis), h) /\ (exists rest, ns = vis ++ rest) /\
    (r = None -> vis = ns /\ forall n d, In n ns -> rec_of h n = Some d -> stop d = false) /\
    (forall n, r = Some n -> exists pre d, vis = pre ++ [n] /\ rec_of h n = Some d /\
        stop d = true /\ forall m d', In m pre -> rec_of h m = Some d' -> stop d' = false).
Proof.
  induction 1 as [|n nd ns Hn Hc IH]; intros Hrec fuel Hf.
  - exists None, []. destruct fuel; simpl; repeat split; eauto; try tauto; discriminate.
  - inversion Hrec as [|? ? [d Hd] Hrest]; subst.
    destruct fuel as [|f]; simpl in Hf; [lia|].
    pose proof Hd as Hd'. apply rec_of_inv in Hd' as (nd' & Hn' & Hdd).
    rewrite Hn in Hn'. injection Hn' as <-.
    cbn [find_loop]. unfold bind, load_node, load_data, ret. rewrite Hn, Hdd.
    destruct (stop d) eqn:Hs.
    + exists (Some n), [n]. split; [reflexivity|]. split; [exists ns; reflexivity|].
      split; [discriminate|].
      intros m Hm. injection Hm as <-. exists [], d. simpl. repeat split; auto. tauto.
    + destruct (IH Hrest f ltac:(lia)) as (r & vis & Hr & [rest Hpre] & Hnone & Hsome).
      rewrite Hr. exists r, (n :: vis). split; [reflexivity|].
      split; [exists rest; simpl; congruence|]. split.
      * intros E. destruct (Hnone E) as [Hv Hall]. split; [congruence|].
        intros m d' [<-|Hm] Hm'; [congruence|]. exact (Hall m d' Hm Hm').
      * intros m Hm. destruct (Hsome m Hm) as (pre & d' & Hv & Hd2 & Hs2 & Hpre2).
        exists (n :: pre), d'. rewrite Hv. repeat split; auto.
        intros m' d'' [<-|Hm2] Hm3; [congruence|]. eauto.
Qed.

(** C9: each of the two CRC scans of [core_bench_list] ([while (finder) {
    retval = crc16(list->info->data16, retval); finder = finder->next; }])
    folds the [data16] of the head [list] -- not of the visited node -- once
    per node of the chain from [finder]: for a chain of [k] nodes the result is
    [crc16] with the head's [data16] applied [k] times to the initial
    [retval], and the memory is unchanged. *)
Theorem crc_scan_list_folds_head_data16 (h : heap) (hd : nat) (d : list_data)
    (finder : option nat) (ns : list nat) (retval : Z) :
  rec_of h hd = Some d -> chain h finder ns ->
  crc_scan_list (Some hd) finder retval h
  = inl (Nat.iter (length ns) (crc16 (data16 d)) retval, h).
Proof.
  intros Hd Hc. unfold crc_scan_list, bind, node_count.
  apply (crc_scan_chain h hd d finder ns Hd Hc).
  pose proof (chain_length _ _ _ Hc). lia.
Qed.

(** C6: on a well-formed list whose nodes all have a record, [core_list_find]
    walks the chain from the head and stops at the first node whose record
    matches the criterion ([idx] equal to [info->idx] when [info->idx >= 0],
    otherwise low byte of [data16] equal to [info->data16]); it returns that
    node, or NULL exactly when no node of the list matches.  The nodes visited
    are a prefix of the chain, each visited once, and the memory is
    unchanged. *)
Theorem core_list_find_first_match (h : heap) (lst : option nat) (ns : list nat)
    (crit : list_data) :
  chain h lst ns -> Forall (has_record h) ns ->
  exists r vis,
    core_list_find_trace lst crit h = inl ((r, vis), h) /\
    core_list_find lst crit h = inl (r, h) /\
    NoDup vis /\ (exists rest, ns = vis ++ rest) /\
    (r = None <-> forall n d, In n ns -> rec_of h n = Some d -> ~ find_matches crit d) /\
    (forall n, r = Some n -> exists pre d,
        vis = pre ++ [n] /\ rec_of h n = Some d /\ find_matches crit d /\
        forall m d', In m pre -> rec_of h m = Some d' -> ~ find_matches crit d').
Proof.
  intros Hc Hrec.
  destruct (find_loop_chain h (find_pred crit) lst ns Hc Hrec (S (size (nodes h))))
    as (r & vis & Hr & [rest Hpre] & Hnone & Hsome).
  { pose proof (chain_length _ _ _ Hc). lia. }
  assert (Htr : core_list_find_trace lst crit h = inl ((r, vis), h)).
  { unfold core_list_find_trace, bind, node_count. exact Hr. }
  exists r, vis. split; [exact Htr|]. split.
  { unfold core_list_find, bind. rewrite Htr. reflexivity. }
  split.
  { pose proof (chain_NoDup _ _ _ Hc) as Hnd. rewrite Hpre in Hnd.
    apply NoDup_app in Hnd. tauto. }
  split; [exists rest; exact Hpre|]. split.
  - split.
    + intros E n d Hn Hd Hm. apply find_pred_spec in Hm.
      rewrite (proj2 (Hnone E) n d Hn Hd) in Hm. discriminate.
    + intros Hno. destruct r as [n|]; [|reflexivity].
      destruct (Hsome n eq_refl) as (pre & d & Hv & Hd & Hs & _).
      exfalso. apply (Hno n d); [|exact Hd|apply find_pred_spec; exact Hs].
      rewrite Hpre, Hv. apply in_or_app. left. apply in_or_app. right. left. reflexivity.
  - intros n E. destruct (Hsome n E) as (pre & d & Hv & Hd & Hs & Hpre2).
    exists pre, d. repeat split; auto.
    + apply find_pred_spec. exact Hs.
    + intros m d' Hm Hm' Hmt. apply find_pred_spec in Hmt.
      rewrite (Hpre2 m d' Hm Hm') in Hmt. discriminate.
Qed.

(** *** [core_list_remove] and [core_list_undo_remove] *)

Ltac heap_lookups :=
  repeat first
    [ rewrite lookup_insert_eq
    | rewrite lookup_insert_ne by congruence
    | rewrite insert_insert_eq ].

Lemma remove_undo_heap (h : heap) (n m : nat) (nd md : list_head) :
  nodes h !! n = Some nd -> next nd = Some m -> nodes h !! m = Some md -> n <> m ->
  exists h1, core_list_remove (Some n) h = inl (Some m, h1) /\
             core_list_undo_remove (Some m) (Some n) h1 = inl (Some m, h).
Proof.
  intros Hn Hnx Hm Hnm. destruct h as [ns ds]; simpl in *.
  unfold core_list_remove, core_list_undo_remove, set_info, set_next, bind, ret,
    load_node, store_node; simpl.
  repeat progress (cbn [nodes datas next info]; rewrite ?Hn, ?Hm, ?Hnx; heap_lookups).
  eexists; split; [reflexivity|].
  repeat progress (cbn [nodes datas next info]; rewrite ?Hn, ?Hm, ?Hnx; heap_lookups).
  do 3 f_equal. apply map_eq. intros k. rewrite !lookup_insert.
  repeat case_decide; subst; try congruence.
  - rewrite Hn. destruct nd; simpl in *; congruence.
  - rewrite Hm. destruct md; reflexivity.
Qed.

(** C2: for a node [n] of a well-formed list that has a successor, undoing its
    removal with [core_list_undo_remove(core_list_remove(n), n)] restores the
    memory exactly; in particular the (idx, data16) sequence of the list is the
    one before the removal. *)
Theorem core_list_undo_remove_restores (h : heap) (lst : option nat)
    (pre post : list nat) (n m : nat) :
  chain h lst (pre ++ n :: m :: post) ->
  exists removed h1 h2,
    core_list_remove (Some n) h = inl (removed, h1) /\
    core_list_undo_remove removed (Some n) h1 = inl (removed, h2) /\
    h2 = h /\ list_seq lst h2 = list_seq lst h.
Proof.
  intros Hc. pose proof (chain_NoDup _ _ _ Hc) as Hnd.
  apply chain_suffix in Hc.
  inversion Hc as [|? nd ? Hn Hc1]; subst.
  inversion Hc1 as [|m' md ? Hm Hc2 Hnx]; subst.
  assert (Hnm : n <> m).
  { intros ->. apply NoDup_app in Hnd as (_ & _ & Hnd).
    inversion Hnd as [|? ? Hnin _]; subst. apply Hnin. left. }
  destruct (remove_undo_heap h n m nd md Hn (eq_sym Hnx) Hm Hnm) as (h1 & H1 & H2).
  exists (Some m), h1, h. repeat split; assumption.
Qed.

(** C10: when the node cursor or the record cursor would reach the end of its
    region ([*memblock + 1 >= memblock_end] or [*datablock + 1 >=
    datablock_end]), [core_list_insert_new] returns NULL and changes nothing:
    not the memory, not the two cursors. *)
Theorem core_list_insert_new_full_no_effect (h : heap) (insert_point : option nat)
    (inf : list_data) (memblock datablock memblock_end datablock_end : nat) :
  (memblock_end <= memblock + 1 \/ datablock_end <= datablock + 1)%nat ->
  core_list_insert_new insert_point inf memblock datablock memblock_end datablock_end h
  = inl ((None, memblock, datablock), h).
Proof.
  intros Hfull. unfold core_list_insert_new.
  destruct (memblock_end <=? memblock + 1)%nat eqn:E1; [reflexivity|].
  apply Nat.leb_gt in E1.
  destruct (datablock_end <=? datablock + 1)%nat eqn:E2; [reflexivity|].
  apply Nat.leb_gt in E2. lia.
Qed.

Lemma crc_scan_list_folds_head_data16_witness :
  rec_of sample_heap 0%nat = Some (mk_data (-32640) 0) /\
  chain sample_heap (Some 1%nat) [1; 2]%nat /\
  crc_scan_list (Some 0%nat) (Some 1%nat) 0 sample_heap
  = inl (Nat.iter 2 (crc16 (-32640)) 0, sample_heap).
Proof.
  split; [reflexivity|]. split; [solve_chain|].
  apply (crc_scan_list_folds_head_data16 sample_heap 0%nat (mk_data (-32640) 0)
           (Some 1%nat) [1; 2]%nat 0); [reflexivity|solve_chain].
Defined.

Lemma core_list_find_first_match_witness :
  chain sample_heap (Some 0%nat) [0; 1; 2]%nat /\
  Forall (has_record sample_heap) [0; 1; 2]%nat /\
  exists r vis,
    core_list_find_trace (Some 0%nat) (mk_data 0 1) sample_heap = inl ((r, vis), sample_heap) /\
    core_list_find (Some 0%nat) (mk_data 0 1) sample_heap = inl (r, sample_heap) /\
    NoDup vis /\ (exists rest, [0; 1; 2]%nat = vis ++ rest) /\
    (r = None <-> forall n d, In n [0; 1; 2]%nat -> rec_of sample_heap n = Some d ->
                  ~ find_matches (mk_data 0 1) d) /\
    (forall n, r = Some n -> exists pre d,
        vis = pre ++ [n] /\ rec_of sample_heap n = Some d /\ find_matches (mk_data 0 1) d /\
        forall m d', In m pre -> rec_of sample_heap m = Some d' ->
                     ~ find_matches (mk_data 0 1) d').
Proof.
  split; [solve_chain|]. split.
  - repeat constructor; eexists; reflexivity.
  - apply (core_list_find_first_match sample_heap (Some 0%nat) [0; 1; 2]%nat (mk_data 0 1)).
    + solve_chain.
    + repeat constructor; eexists; reflexivity.
Defined.

Lemma core_list_undo_remove_restores_witness :
  chain sample_heap (Some 0%nat) ([0%nat] ++ 1%nat :: 2%nat :: []) /\
  exists removed h1 h2,
    core_list_remove (Some 1%nat) sample_heap = inl (removed, h1) /\
    core_list_undo_remove removed (Some 1%nat) h1 = inl (removed, h2) /\
    h2 = sample_heap /\ list_seq (Some 0%nat) h2 = list_seq (Some 0%nat) sample_heap.
Proof.
  split; [simpl; solve_chain|].
  apply (core_list_undo_remove_restores sample_heap (Some 0%nat) [0%nat] [] 1 2).
  simpl; solve_chain.
Defined.

Lemma core_list_insert_new_full_no_effect_witness :
  (5 <= 4 + 1 \/ 9 <= 2 + 1)%nat /\
  core_list_insert_new (Some 0%nat) (mk_data 0 0) 4 2 5 9 sample_heap
  = inl ((None, 4%nat, 2%nat), sample_heap).
Proof.
  split; [lia|].
  apply (core_list_insert_new_full_no_effect sample_heap (Some 0%nat) (mk_data 0 0) 4 2 5 9).
  lia.
Defined.

(** *** The merge sort *)

Section MergeSortProofs.
Context {A St : Type} (cmp : A -> A -> M St Z) (f : A -> A -> Z)
  (P : A -> Prop) (I : St -> Prop).

(** The comparator returns [f a b] on the elements considered and keeps the
    state invariant [I]. *)
Hypothesis Hcmp : forall a b s, P a -> P b -> I s ->
  exists s', cmp a b s = inl (f a b, s') /\ I s'.

(** [f] is a total preorder on the elements considered. *)
Hypothesis f_total : forall a b, P a -> P b -> f a b <= 0 \/ f b a <= 0.
Hypothesis f_trans : forall a b c, P a -> P b -> P c ->
  f a b <= 0 -> f b c <= 0 -> f a c <= 0.

Lemma merge_by_perm (p q : list A) : Permutation (p ++ q) (merge_by f p q).
Proof.
  revert q. induction p as [|a p IHp]; intros q; [reflexivity|].
  induction q as [|b q IHq]; simpl.
  - rewrite app_nil_r. reflexivity.
  - destruct (f a b <=? 0).
    + constructor. apply IHp.
    + rewrite <- IHq. simpl. symmetry.
      apply (Permutation_middle (a :: p) q b).
Qed.

Lemma merge_by_HdRel (x : A) (p q : list A) :
  HdRel (le_by f) x p -> HdRel (le_by f) x q -> HdRel (le_by f) x (merge_by f p q).
Proof.
  intros Hp Hq. destruct p as [|a p]; [exact Hq|]. destruct q as [|b q]; [exact Hp|].
  simpl. destruct (f a b <=? 0).
  - inversion Hp; subst. constructor. assumption.
  - inversion Hq; subst. constructor. assumption.
Qed.

Lemma merge_by_sorted (p q : list A) :
  Forall P p -> Forall P q -> Sorted (le_by f) p -> Sorted (le_by f) q ->
  Sorted (le_by f) (merge_by f p q).
Proof.
  revert q. induction p as [|a p IHp]; intros q HPp HPq Hsp Hsq; [exact Hsq|].
  induction q as [|b q IHq]; [exact Hsp|].
  inversion HPp as [|? ? HPa HPp']; subst. inversion HPq as [|? ? HPb HPq']; subst.
  cbn [merge_by]. destruct (f a b <=? 0) eqn:E.
  - apply Z.leb_le in E. apply Sorted_inv in Hsp as [Hsp' Hhd].
    constructor; [apply IHp; auto|].
    apply merge_by_HdRel; [exact Hhd|constructor; exact E].
  - apply Z.leb_gt in E. apply Sorted_inv in Hsq as [Hsq' Hhd].
    constructor; [apply IHq; auto|].
    change (HdRel (le_by f) b (merge_by f (a :: p) q)).
    apply merge_by_HdRel; [|exact Hhd].
    constructor. unfold le_by. destruct (f_total a b HPa HPb); [lia|assumption].
Qed.

Lemma sorted_head_le (a : A) (l : list A) :
  Forall P (a :: l) -> Sorted (le_by f) (a :: l) -> forall c, In c l -> le_by f a c.
Proof.
  revert a. induction l as [|b l IH]; intros a HP Hs c Hc; [destruct Hc|].
  inversion HP as [|? ? HPa HPl]; subst. inversion HPl as [|? ? HPb HPl']; subst.
  apply Sorted_inv in Hs as [Hs Hhd]. inversion Hhd; subst.
  destruct Hc as [<-|Hc]; [assumption|].
  unfold le_by in *. apply (f_trans a b c HPa HPb).
  - rewrite Forall_forall in HPl'. apply HPl', list_elem_of_In, Hc.
  - assumption.
  - apply (IH b); auto.
Qed.

(** Merging keeps the order of the elements of a class [e] whose members are
    all equivalent ([e] is [eqv_by f x] in the statements). *)
Lemma merge_by_filter (e : A -> bool) (p q : list A) :
  (forall y z, P y -> P z -> e y = true -> e z = true -> f y z <= 0) ->
  Forall P p -> Forall P q -> Sorted (le_by f) p ->
  List.filter e (merge_by f p q) = List.filter e p ++ List.filter e q.
Proof.
  intros He. revert q. induction p as [|a p IHp]; intros q HPp HPq Hsp; [reflexivity|].
  induction q as [|b q IHq]; [simpl; rewrite app_nil_r; reflexivity|].
  inversion HPq as [|? ? HPb HPq']; subst.
  cbn [merge_by]. destruct (f a b <=? 0) eqn:E.
  - pose proof Hsp as Hsp0. apply Sorted_inv in Hsp as [Hsp' _].
    inversion HPp; subst. simpl. rewrite IHp by auto.
    destruct (e a); reflexivity.
  - apply Z.leb_gt in E. inversion HPp as [|? ? HPa HPp']; subst.
    change (List.filter e ([b] ++ merge_by f (a :: p) q)
            = List.filter e (a :: p) ++ List.filter e ([b] ++ q)).
    rewrite List.filter_app, IHq by auto. rewrite (List.filter_app e [b] q).
    replace (List.filter e [b]) with (if e b then [b] else []) by reflexivity.
    destruct (e b) eqn:Eb; [|reflexivity].
    destruct (List.filter e (a :: p)) as [|x r] eqn:F; [reflexivity|].
    exfalso. assert (Hx : In x (List.filter e (a :: p))) by (rewrite F; left; reflexivity).
    apply List.filter_In in Hx as [Hx Hex].
    assert (Hxb : f x b <= 0).
    { apply He; auto. rewrite Forall_forall in HPp. apply HPp, list_elem_of_In, Hx. }
    assert (Hax : f a x <= 0).
    { destruct Hx as [<-|Hx].
      - destruct (f_total a a HPa HPa); assumption.
      - apply (sorted_head_le a p); auto. }
    assert (f a b <= 0); [|lia].
    apply (f_trans a x b); auto.
    rewrite Forall_forall in HPp. apply HPp, list_elem_of_In, Hx.
Qed.

Lemma ms_merge_cons2 (a : A) (p : list A) (b : A) (q : list A) :
  ms_merge cmp (a :: p) (b :: q)
  = (c <- cmp a b ;;
     if c <=? 0 then (r <- ms_merge cmp p (b :: q) ;; ret (a :: r))
     else (r <- ms_merge cmp (a :: p) q ;; ret (b :: r))).
Proof. reflexivity. Qed.

Lemma merge_by_cons2 (a : A) (p : list A) (b : A) (q : list A) :
  merge_by f (a :: p) (b :: q)
  = if f a b <=? 0 then a :: merge_by f p (b :: q) else b :: merge_by f (a :: p) q.
Proof. reflexivity. Qed.

Lemma ms_merge_run (p q : list A) (s : St) :
  Forall P p -> Forall P q -> I s ->
  exists s', ms_merge cmp p q s = inl (merge_by f p q, s') /\ I s'.
Proof.
  revert q s. induction p as [|a p IHp]; intros q s HPp HPq Hs.
  - exists s. split; [reflexivity|assumption].
  - inversion HPp as [|? ? HPa HPp']; subst.
    revert s HPq Hs. induction q as [|b q IHq]; intros s HPq Hs.
    + exists s. split; [reflexivity|assumption].
    + inversion HPq as [|? ? HPb HPq']; subst.
      rewrite ms_merge_cons2, merge_by_cons2. unfold bind at 1.
      destruct (Hcmp a b s HPa HPb Hs) as (s1 & Hc & Hs1). rewrite Hc.
      destruct (f a b <=? 0).
      * destruct (IHp (b :: q) s1 HPp' HPq Hs1) as (s2 & H2 & Hs2).
        unfold bind. rewrite H2. exists s2. split; [reflexivity|assumption].
      * destruct (IHq s1 HPq' Hs1) as (s2 & H2 & Hs2).
        unfold bind. rewrite H2. exists s2. split; [reflexivity|assumption].
Qed.

Lemma runs_split (le : A -> A -> Prop) (k : nat) (l : list A) :
  runs_sorted le k l -> Sorted le (firstn k l) /\ runs_sorted le k (skipn k l).
Proof.
  intros Hr. inversion Hr as [|r Hne Hlen Hs|r rest Hlen Hs Hrest]; subst.
  - destruct k; split; constructor.
  - rewrite take_ge, drop_ge by lia. split; [assumption|constructor].
  - rewrite take_app_length, drop_app_length. split; assumption.
Qed.

Lemma runs_sorted_1 (le : A -> A -> Prop) (l : list A) : runs_sorted le 1 l.
Proof.
  induction l as [|a l IH]; [constructor|].
  apply (runs_cons le 1 [a] l); [reflexivity|repeat constructor|exact IH].
Qed.

Lemma ms_pass_cons (fuel : nat) (k : nat) (x : A) (l : list A) :
  ms_pass cmp (S fuel) k (x :: l)
  = (m <- ms_merge cmp (firstn k (x :: l)) (firstn k (skipn k (x :: l))) ;;
     r <- ms_pass cmp fuel k (skipn k (skipn k (x :: l))) ;;
     let '(rest, nm) := r in ret (m ++ rest, S nm)).
Proof. reflexivity. Qed.

Lemma ms_pass_run (k : nat) :
  (1 <= k)%nat ->
  forall fuel l s, (length l <= fuel)%nat -> Forall P l -> I s ->
  exists r nm s', ms_pass cmp fuel k l s = inl ((r, nm), s') /\ I s' /\
    Permutation l r /\ (nm = 0%nat <-> l = []) /\
    ((length l <= 2 * k)%nat -> (nm <= 1)%nat) /\
    (runs_sorted (le_by f) k l ->
       runs_sorted (le_by f) (2 * k) r /\ ((nm <= 1)%nat -> Sorted (le_by f) r) /\
       forall e, (forall y z, P y -> P z -> e y = true -> e z = true -> f y z <= 0) ->
         List.filter e r = List.filter e l).
Proof.
  intros Hk. induction fuel as [|fu IH]; intros l s Hlen HP Hs.
  - destruct l; simpl in Hlen; [|lia].
    exists [], 0%nat, s. split; [reflexivity|]. split; [assumption|].
    split; [reflexivity|]. split; [tauto|]. split; [lia|].
    intros _. split; [constructor|]. split; [constructor|reflexivity].
  - destruct l as [|x l0].
    + exists [], 0%nat, s. split; [reflexivity|]. split; [assumption|].
      split; [reflexivity|]. split; [tauto|]. split; [lia|].
      intros _. split; [constructor|]. split; [constructor|reflexivity].
    + rewrite ms_pass_cons. set (l := x :: l0) in *.
      set (p1 := firstn k l). set (q1 := firstn k (skipn k l)).
      set (rest := skipn k (skipn k l)).
      assert (Hsplit : l = p1 ++ q1 ++ rest).
      { unfold p1, q1, rest. rewrite !firstn_skipn. reflexivity. }
      assert (HP1 : Forall P p1) by (apply Forall_take; exact HP).
      assert (HQ1 : Forall P q1) by (apply Forall_take, Forall_drop; exact HP).
      assert (HR : Forall P rest) by (apply Forall_drop, Forall_drop; exact HP).
      assert (Hlr : length rest = (length l - 2 * k)%nat).
      { unfold rest. rewrite !length_drop. lia. }
      assert (Hl : (1 <= length l)%nat) by (unfold l; simpl; lia).
      destruct (ms_merge_run p1 q1 s HP1 HQ1 Hs) as (s1 & Hm & Hs1).
      unfold bind at 1. rewrite Hm.
      destruct (IH rest s1 ltac:(lia) HR Hs1)
        as (r' & nm & s2 & Hr & Hs2 & Hperm & Hnm0 & Hnm1 & Hruns).
      unfold bind. rewrite Hr.
      exists (merge_by f p1 q1 ++ r'), (S nm), s2.
      split; [reflexivity|]. split; [assumption|].
      assert (Hrest0 : rest = [] -> r' = []).
      { intros E. rewrite E in Hperm. apply Permutation_nil. exact Hperm. }
      split.
      { rewrite Hsplit at 1. rewrite app_assoc.
        apply Permutation_app; [apply merge_by_perm|exact Hperm]. }
      split; [split; [discriminate|unfold l; discriminate]|].
      split.
      { intros Hle. assert (rest = []) as E.
        { apply length_zero_iff_nil. lia. }
        apply Hnm0 in E. lia. }
      intros Hrs.
      destruct (runs_split _ _ _ Hrs) as [Hs_p1 Hrs_q].
      destruct (runs_split _ _ _ Hrs_q) as [Hs_q1 Hrs_rest].
      fold p1 q1 rest in Hs_p1, Hs_q1, Hrs_rest.
      destruct (Hruns Hrs_rest) as (Hruns' & _ & Hfilt).
      assert (Hsm : Sorted (le_by f) (merge_by f p1 q1)) by (apply merge_by_sorted; auto).
      split; [|split].
      * destruct rest as [|y rest'] eqn:Erest.
        { rewrite (Hrest0 eq_refl), app_nil_r. apply runs_last.
          - intros E. pose proof (merge_by_perm p1 q1) as Hpm. rewrite E in Hpm.
            symmetry in Hpm. apply Permutation_nil in Hpm. apply app_eq_nil in Hpm as [Hp1 _].
            apply (f_equal (@length A)) in Hp1. unfold p1 in Hp1.
            rewrite length_take in Hp1. simpl in Hp1. lia.
          - rewrite <- (Permutation_length (merge_by_perm p1 q1)), length_app.
            unfold p1, q1. rewrite !length_take. lia.
          - exact Hsm. }
        { apply runs_cons; [|exact Hsm|exact Hruns'].
          rewrite <- (Permutation_length (merge_by_perm p1 q1)), length_app.
          change (length (y :: rest')) with (S (length rest')) in Hlr. unfold p1, q1. rewrite !length_take, length_drop. lia. }
      * intros Hle. assert (nm = 0%nat) as E by lia. apply Hnm0 in E.
        rewrite (Hrest0 E), app_nil_r. exact Hsm.
      * intros e He. rewrite List.filter_app, Hfilt by exact He.
        rewrite (merge_by_filter e p1 q1 He HP1 HQ1 Hs_p1).
        rewrite Hsplit at 1. rewrite !List.filter_app. symmetry; apply app_assoc.
Qed.

Lemma ms_loop_run :
  forall fuel k l passes s, (1 <= k)%nat -> l <> [] ->
  (length l <= 2 * k * 2 ^ fuel)%nat -> Forall P l -> I s ->
  runs_sorted (le_by f) k l ->
  exists r ps s', ms_loop cmp fuel k l passes s = inl ((r, ps), s') /\ I s' /\
    Permutation l r /\ Sorted (le_by f) r /\
    forall e, (forall y z, P y -> P z -> e y = true -> e z = true -> f y z <= 0) ->
      List.filter e r = List.filter e l.
Proof.
  induction fuel as [|fu IH]; intros k l passes s Hk Hne Hlen HP Hs Hrs;
    destruct (ms_pass_run k Hk (length l) l s (le_n _) HP Hs)
      as (r & nm & s1 & Hr & Hs1 & Hperm & Hnm0 & Hnm1 & Hruns);
    destruct (Hruns Hrs) as (Hrs' & Hsorted & Hfilt);
    cbn [ms_loop]; unfold bind at 1; rewrite Hr;
    (destruct r as [|y r0]; [symmetry in Hperm; apply Permutation_nil in Hperm; contradiction|]);
    destruct (nm <=? 1)%nat eqn:E.
  - apply Nat.leb_le in E. exists (y :: r0), (passes ++ [nm]), s1. auto 6.
  - apply Nat.leb_gt in E. simpl in Hlen. specialize (Hnm1 ltac:(lia)). lia.
  - apply Nat.leb_le in E. exists (y :: r0), (passes ++ [nm]), s1. auto 6.
  - apply Nat.leb_gt in E.
    assert (HP' : Forall P (y :: r0)).
    { apply (Permutation_Forall Hperm). exact HP. }
    destruct (IH (2 * k)%nat (y :: r0) (passes ++ [nm]) s1 ltac:(lia) ltac:(discriminate)
                ltac:(rewrite <- (Permutation_length Hperm), Nat.pow_succ_r' in *; nia)
                HP' Hs1 Hrs')
      as (r' & ps & s2 & Hr' & Hs2 & Hperm' & Hsorted' & Hfilt').
    exists r', ps, s2. split; [exact Hr'|]. split; [exact Hs2|].
    split; [transitivity (y :: r0); assumption|]. split; [exact Hsorted'|].
    intros e He. rewrite (Hfilt' e He). exact (Hfilt e He).
Qed.

Lemma mergesort_run (l : list A) (s : St) :
  l <> [] -> Forall P l -> I s ->
  exists r ps s', mergesort cmp l s = inl ((r, ps), s') /\ I s' /\
    Permutation l r /\ Sorted (le_by f) r /\
    forall e, (forall y z, P y -> P z -> e y = true -> e z = true -> f y z <= 0) ->
      List.filter e r = List.filter e l.
Proof.
  intros Hne HP Hs. unfold mergesort. apply ms_loop_run; auto.
  - pose proof (Nat.pow_gt_lin_r 2 (length l) ltac:(lia)). lia.
  - apply runs_sorted_1.
Qed.
End MergeSortProofs.

(** *** Walking, relinking and reversing a chain *)

Lemma chain_frame (h h' : heap) (p : option nat) (ns : list nat) :
  chain h p ns -> (forall k, In k ns -> nodes h' !! k = nodes h !! k) -> chain h' p ns.
Proof.
  induction 1 as [|n nd ns Hn Hc IH]; intros Hfr; [constructor|].
  econstructor.
  - rewrite Hfr by (left; reflexivity). exact Hn.
  - apply IH. intros k Hk. apply Hfr. right. exact Hk.
Qed.

Lemma walk_chain (h : heap) (p : option nat) (ns : list nat) :
  chain h p ns -> forall fuel, (length ns <= fuel)%nat -> walk fuel p h = inl (ns, h).
Proof.
  induction 1 as [|n nd ns Hn Hc IH]; intros fuel Hf; [destruct fuel; reflexivity|].
  destruct fuel as [|fu]; simpl in Hf; [lia|].
  cbn [walk]. unfold bind, load_node, ret. rewrite Hn. rewrite IH by lia. reflexivity.
Qed.

Lemma chain_nodes_chain (h : heap) (p : option nat) (ns : list nat) :
  chain h p ns -> chain_nodes p h = inl (ns, h).
Proof.
  intros Hc. unfold chain_nodes, bind, node_count. apply (walk_chain h p ns Hc).
  pose proof (chain_length _ _ _ Hc). lia.
Qed.

(** [p->next = v] on an existing node: only that node's [next] changes. *)
Lemma set_next_run (h : heap) (n : nat) (nd : list_head) (v : option nat) :
  nodes h !! n = Some nd ->
  set_next (Some n) v h
  = inl (tt, mk_heap (<[n := mk_head v (info nd)]> (nodes h)) (datas h)).
Proof.
  intros Hn. unfold set_next, bind, load_node, store_node. rewrite Hn. simpl. rewrite Hn.
  reflexivity.
Qed.

Lemma rec_of_set_next (h : heap) (n : nat) (nd : list_head) (v : option nat) (k : nat) :
  nodes h !! n = Some nd ->
  rec_of (mk_heap (<[n := mk_head v (info nd)]> (nodes h)) (datas h)) k = rec_of h k.
Proof.
  intros Hn. unfold rec_of. simpl. rewrite lookup_insert.
  case_decide; subst; [rewrite Hn|]; reflexivity.
Qed.

Lemma relink_from_run (ns : list nat) :
  forall h, NoDup ns -> (forall n, In n ns -> exists nd, nodes h !! n = Some nd) -> ns <> [] ->
  exists h', relink_from ns h = inl (tt, h') /\ chain h' (head ns) ns /\
    (forall k, rec_of h' k = rec_of h k) /\
    (forall k, ~ In k ns -> nodes h' !! k = nodes h !! k).
Proof.
  induction ns as [|n ns IH]; intros h Hnd Hin Hne; [congruence|].
  destruct (Hin n (or_introl eq_refl)) as [nd Hn].
  destruct ns as [|m ns].
  - eexists. split; [apply set_next_run; exact Hn|]. split; [|split].
    + econstructor; [simpl; apply lookup_insert_eq|constructor].
    + intros k. apply rec_of_set_next. exact Hn.
    + intros k Hk. simpl. apply lookup_insert_ne. intros ->. apply Hk. left. reflexivity.
  - set (h1 := mk_heap (<[n := mk_head (Some m) (info nd)]> (nodes h)) (datas h)).
    inversion Hnd as [|? ? Hnin Hnd']; subst.
    destruct (IH h1 Hnd') as (h' & Hr & Hc & Hrec & Hfr).
    { intros k Hk. unfold h1. simpl. rewrite lookup_insert. case_decide; [eauto|].
      apply Hin. right. exact Hk. }
    { discriminate. }
    exists h'. split; [|split; [|split]].
    + cbn [relink_from]. unfold bind at 1. rewrite (set_next_run h n nd (Some m) Hn).
      exact Hr.
    + econstructor.
      * rewrite Hfr by (intros Hk; apply Hnin, list_elem_of_In, Hk).
        unfold h1. simpl. apply lookup_insert_eq.
      * exact Hc.
    + intros k. rewrite Hrec. apply rec_of_set_next. exact Hn.
    + intros k Hk. rewrite Hfr by (intros Hk'; apply Hk; right; exact Hk').
      unfold h1. simpl. apply lookup_insert_ne. intros ->. apply Hk. left. reflexivity.
Qed.

Lemma reverse_loop_run (ns : list nat) :
  forall fuel lst nxt acc h, chain h lst ns -> chain h nxt acc -> NoDup (ns ++ acc) ->
  (length ns <= fuel)%nat ->
  exists r h', reverse_loop fuel lst nxt h = inl (r, h') /\ chain h' r (rev ns ++ acc) /\
    (forall k, rec_of h' k = rec_of h k).
Proof.
  induction ns as [|n ns IH]; intros fuel lst nxt acc h Hc Hacc Hnd Hf.
  - inversion Hc; subst. exists nxt, h. destruct fuel; simpl; auto.
  - inversion Hc as [|? nd ? Hn Hc']; subst.
    destruct fuel as [|fu]; simpl in Hf; [lia|].
    inversion Hnd as [|? ? Hnin Hnd']; subst.
    set (h1 := mk_heap (<[n := mk_head nxt (info nd)]> (nodes h)) (datas h)).
    assert (Hnot : forall k, In k (ns ++ acc) -> nodes h1 !! k = nodes h !! k).
    { intros k Hk. unfold h1. simpl. apply lookup_insert_ne. intros ->.
      apply Hnin, list_elem_of_In, Hk. }
    destruct (IH fu (next nd) (Some n) (n :: acc) h1) as (r & h' & Hr & Hc2 & Hrec).
    + apply (chain_frame h); [exact Hc'|]. intros k Hk. apply Hnot, in_or_app. left. exact Hk.
    + econstructor; [unfold h1; simpl; apply lookup_insert_eq|].
      apply (chain_frame h); [exact Hacc|]. intros k Hk. apply Hnot, in_or_app. right. exact Hk.
    + apply NoDup_app in Hnd' as (Hd1 & Hdisj & Hd2). apply NoDup_app. split; [exact Hd1|].
      split.
      * intros k Hk1 Hk2. apply list_elem_of_In in Hk2. destruct Hk2 as [<-|Hk2].
        -- apply Hnin, list_elem_of_In, in_or_app. left. apply list_elem_of_In, Hk1.
        -- apply (Hdisj k Hk1). apply list_elem_of_In, Hk2.
      * constructor; [|exact Hd2]. intros Hk. apply Hnin, list_elem_of_In, in_or_app.
        right. apply list_elem_of_In, Hk.
    + lia.
    + exists r, h'. split; [|split].
      * cbn [reverse_loop]. unfold bind at 1, load_node at 1. rewrite Hn.
        unfold bind. rewrite (set_next_run h n nd nxt Hn). exact Hr.
      * simpl. rewrite <- app_assoc. exact Hc2.
      * intros k. rewrite Hrec. unfold h1. apply rec_of_set_next. exact Hn.
Qed.

(** *** [core_list_mergesort] on a chain *)

(** On records whose [data16] is already normalized, [cmp_idx] restores
    nothing: it returns the difference of the [idx] fields and leaves the
    memory as it is. *)
Lemma cmp_idx_null_normalized (h : heap) (a b : nat) (da db : list_data) :
  datas h !! a = Some da -> datas h !! b = Some db -> normalized da -> normalized db ->
  cmp_idx_null a b h = inl (idx da - idx db, h).
Proof.
  intros Ha Hb Na Nb. destruct h as [ns ds]; simpl in *. unfold normalized in *.
  assert (Ea : mk_data (data16 da) (idx da) = da) by (destruct da; reflexivity).
  assert (Eb : mk_data (data16 db) (idx db) = db) by (destruct db; reflexivity).
  unfold cmp_idx_null, bind, load_data, store_data, ret.
  repeat progress (cbn [datas nodes];
    rewrite ?Ha, ?Hb, ?Na, ?Nb, ?Ea, ?Eb, ?(insert_id ds a da Ha), ?(insert_id ds b db Hb)).
  reflexivity.
Qed.

Lemma node_cmp_normalized (h : heap) (a b : nat) (da db : list_data) :
  rec_of h a = Some da -> rec_of h b = Some db -> normalized da -> normalized db ->
  node_cmp cmp_idx_null a b h = inl (idx da - idx db, h).
Proof.
  intros Ha Hb Na Nb.
  apply rec_of_inv in Ha as (na & Hna & Hda). apply rec_of_inv in Hb as (nb & Hnb & Hdb).
  unfold node_cmp, bind, lift, load_node. simpl. rewrite Hna. simpl. rewrite Hnb. simpl.
  apply cmp_idx_null_normalized; assumption.
Qed.

(** For a comparator that returns [f a b] on the nodes of the chain and leaves
    the memory as it is, [core_list_mergesort] relinks the nodes into a
    sorted, stable permutation and keeps every record where it was. *)
Lemma core_list_mergesort_run (cmp : nat -> nat -> M heap Z) (f : nat -> nat -> Z)
    (h : heap) (p : option nat) (ns : list nat) :
  chain h p ns -> ns <> [] ->
  (forall a b, In a ns -> In b ns -> node_cmp cmp a b h = inl (f a b, h)) ->
  (forall a b, In a ns -> In b ns -> f a b <= 0 \/ f b a <= 0) ->
  (forall a b c, In a ns -> In b ns -> In c ns -> f a b <= 0 -> f b c <= 0 -> f a c <= 0) ->
  exists n0 ns' h', core_list_mergesort cmp p h = inl (Some n0, h') /\
    chain h' (Some n0) (n0 :: ns') /\ Permutation ns (n0 :: ns') /\
    Sorted (le_by f) (n0 :: ns') /\
    (forall e, (forall y z, In y ns -> In z ns -> e y = true -> e z = true -> f y z <= 0) ->
       List.filter e (n0 :: ns') = List.filter e ns) /\
    (forall k, rec_of h' k = rec_of h k).
Proof.
  intros Hc Hne Hcmp Htot Htrans.
  destruct (mergesort_run (node_cmp cmp) f (fun n => In n ns) (fun s => s = h)
              ltac:(intros a b s Ha Hb ->; exists h; auto) Htot Htrans ns h Hne
              ltac:(apply Forall_forall; intros x Hx; apply list_elem_of_In; exact Hx)
              eq_refl)
    as (r & ps & s' & Hr & -> & Hperm & Hsorted & Hfilt).
  destruct r as [|n0 ns']; [symmetry in Hperm; apply Permutation_nil in Hperm; contradiction|].
  destruct (relink_from_run (n0 :: ns') h) as (h' & Hrl & Hc' & Hrec & _).
  - apply NoDup_ListNoDup. apply (Permutation_NoDup Hperm). apply NoDup_ListNoDup.
    exact (chain_NoDup _ _ _ Hc).
  - intros n Hn. apply (chain_in_nodes h p ns n Hc). apply (Permutation_in n (Permutation_sym Hperm)). exact Hn.
  - discriminate.
  - exists n0, ns', h'. split; [|split; [exact Hc'|split; [exact Hperm|split; [exact Hsorted|split]]]].
    + assert (Hrel : relink (n0 :: ns') h = inl (Some n0, h'))
        by (unfold relink, bind; rewrite Hrl; reflexivity).
      unfold core_list_mergesort, bind, lift. cbn -[relink chain_nodes mergesort].
      rewrite (chain_nodes_chain h p ns Hc). rewrite Hr. cbn -[relink].
      rewrite Hrel. reflexivity.
    + intros e He. apply Hfilt. exact He.
    + exact Hrec.
Qed.

(** *** The list built by [core_list_init] *)

Lemma load_node_run (h : heap) (n : nat) (nd : list_head) :
  nodes h !! n = Some nd -> load_node (Some n) h = inl (nd, h).
Proof. intros Hn. unfold load_node. rewrite Hn. reflexivity. Qed.

Lemma set_info_run (h : heap) (n : nat) (nd : list_head) (v : nat) :
  nodes h !! n = Some nd ->
  set_info (Some n) v h = inl (tt, mk_heap (<[n := mk_head (next nd) v]> (nodes h)) (datas h)).
Proof.
  intros Hn. unfold set_info, bind, load_node, store_node. rewrite Hn. simpl. rewrite Hn.
  reflexivity.
Qed.

Lemma store_data_run (h : heap) (r : nat) (d : list_data) :
  is_Some (datas h !! r) -> store_data r d h = inl (tt, mk_heap (nodes h) (<[r := d]> (datas h))).
Proof. intros [x Hx]. unfold store_data. rewrite Hx. reflexivity. Qed.

Lemma region_nodes (sz j : nat) :
  (j < sz)%nat -> nodes (region sz) !! j = Some (mk_head None 0%nat).
Proof.
  intros Hj. unfold region. simpl. apply elem_of_list_to_map_1'.
  - intros y Hy. apply list_elem_of_In, in_map_iff in Hy as (k & Hk & _).
    injection Hk as _ <-. reflexivity.
  - apply list_elem_of_In, in_map_iff. exists j. split; [reflexivity|].
    apply in_seq. lia.
Qed.

Lemma region_datas (sz j : nat) :
  (j < sz)%nat -> datas (region sz) !! j = Some (mk_data 0 0).
Proof.
  intros Hj. unfold region. simpl. apply elem_of_list_to_map_1'.
  - intros y Hy. apply list_elem_of_In, in_map_iff in Hy as (k & Hk & _).
    injection Hk as _ <-. reflexivity.
  - apply list_elem_of_In, in_map_iff. exists j. split; [reflexivity|].
    apply in_seq. lia.
Qed.

Lemma in_built_chain (c k : nat) :
  In k (rev (seq 2 c) ++ [1%nat]) -> k = 1%nat \/ (2 <= k < 2 + c)%nat.
Proof.
  intros Hk. apply in_app_or in Hk as [Hk|[<-|[]]]; [|left; reflexivity].
  apply in_rev, in_seq in Hk. right. lia.
Qed.

(** The records of the inserted nodes: [(dat << 8) | dat] with [dat < 128]
    has its backup byte equal to its low byte. *)
Lemma init_data16_normalized_table :
  forallb (fun a => forallb (fun b =>
      let dat := Z.lor (Z.shiftl a 3) b in
      let v := to_s16 (Z.lor (Z.shiftl dat 8) dat) in
      restore_data16 v =? v) (map Z.of_nat (seq 0 8))) (map Z.of_nat (seq 0 16)) = true.
Proof. vm_compute. reflexivity. Qed.

Lemma init_data16_normalized (seed i idx0 : Z) :
  let datpat := Z.land (to_u16 (Z.lxor (to_u32 seed) i)) 15 in
  let dat := Z.lor (Z.shiftl datpat 3) (Z.land i 7) in
  normalized (mk_data (to_s16 (Z.lor (Z.shiftl dat 8) dat)) idx0).
Proof.
  intros datpat dat. unfold normalized. simpl.
  pose proof init_data16_normalized_table as T.
  assert (Ha : 0 <= datpat < 16).
  { unfold datpat. change 15 with (Z.ones 4). rewrite Z.land_ones by lia.
    apply Z.mod_pos_bound. lia. }
  assert (Hb : 0 <= Z.land i 7 < 8).
  { change 7 with (Z.ones 3). rewrite Z.land_ones by lia. apply Z.mod_pos_bound. lia. }
  rewrite forallb_forall in T.
  specialize (T datpat ltac:(apply in_map_iff; exists (Z.to_nat datpat);
                              split; [lia|apply in_seq; lia])).
  rewrite forallb_forall in T.
  specialize (T (Z.land i 7) ltac:(apply in_map_iff; exists (Z.to_nat (Z.land i 7));
                                    split; [lia|apply in_seq; lia])).
  apply Z.eqb_eq in T. exact T.
Qed.

Lemma insert_new_step (h : heap) (sz c : nat) (inf : list_data) :
  built_inv h sz c -> (3 + c < sz)%nat -> normalized inf ->
  exists h', core_list_insert_new (Some 0%nat) inf (2 + c) (2 + c) sz sz h
               = inl ((Some (2 + c)%nat, S (2 + c), S (2 + c)), h') /\
             built_inv h' sz (S c).
Proof.
  intros (Hch & Hnd & Hdt & Hfree) Hsz Hinf.
  inversion Hch as [|? nd0 ? H0 Hrest]; subst.
  destruct (Hfree (2 + c)%nat ltac:(lia)) as [[g Hg] Hgd].
  unfold core_list_insert_new.
  replace (sz <=? 2 + c + 1)%nat with false by (symmetry; apply Nat.leb_gt; lia).
  cbn -[load_node set_next set_info store_data].
  unfold bind at 1. rewrite (load_node_run _ _ _ H0).
  unfold bind at 1. rewrite (set_next_run _ _ _ _ Hg).
  unfold bind at 1. erewrite set_next_run
    by (cbn [nodes]; rewrite lookup_insert_ne by lia; exact H0).
  unfold bind at 1. erewrite set_info_run
    by (cbn [nodes]; rewrite lookup_insert_ne by lia; apply lookup_insert_eq).
  unfold bind at 1. rewrite store_data_run by exact Hgd.
  eexists; split; [reflexivity|].
  unfold built_inv. cbn [nodes datas next info].
  destruct (Hnd 0%nat ltac:(lia)) as [nx0 Hnx0]. rewrite H0 in Hnx0.
  injection Hnx0 as ->. cbn [next info] in *.
  split; [|split; [|split]].
  - replace (rev (seq 2 (S c))) with ((2 + c)%nat :: rev (seq 2 c))
      by (rewrite seq_S, rev_app_distr; reflexivity).
    eapply chain_cons; [cbn [nodes]; rewrite lookup_insert_ne by lia; apply lookup_insert_eq|].
    cbn [next]. eapply chain_cons; [cbn [nodes]; apply lookup_insert_eq|]. cbn [next].
    eapply chain_frame; [exact Hrest|].
    intros k Hk. apply in_built_chain in Hk.
    cbn [nodes]. rewrite lookup_insert_ne by lia. rewrite lookup_insert_ne by lia.
    rewrite lookup_insert_ne by lia. reflexivity.
  - intros j Hj.
    destruct (decide (j = 2 + c)%nat) as [->|Hj1]; [eexists; apply lookup_insert_eq|].
    rewrite lookup_insert_ne by lia.
    destruct (decide (j = 0)%nat) as [->|Hj0]; [eexists; apply lookup_insert_eq|].
    rewrite lookup_insert_ne by lia. rewrite lookup_insert_ne by lia.
    apply Hnd. lia.
  - intros j Hj.
    destruct (decide (j = 2 + c)%nat) as [->|Hj1].
    + eexists; split; [apply lookup_insert_eq|]. exact Hinf.
    + rewrite lookup_insert_ne by lia. apply Hdt. lia.
  - intros j Hj. rewrite !lookup_insert_ne by lia. apply Hfree. lia.
Qed.

Lemma init_insert_loop_run (count : nat) : forall (sz c : nat) (h : heap) (seed i idx0 : Z),
  built_inv h sz c -> (3 + c <= sz)%nat ->
  exists h', init_insert_loop (Some 0%nat) seed i count idx0 (2 + c) (2 + c) sz sz h
               = inl ((2 + Nat.min (c + count) (sz - 3), 2 + Nat.min (c + count) (sz - 3))%nat, h') /\
             built_inv h' sz (Nat.min (c + count) (sz - 3)).
Proof.
  induction count as [|count IH]; intros sz c h seed i idx0 Hb Hsz.
  - replace (Nat.min (c + 0) (sz - 3)) with c by lia. exists h. split; [reflexivity|exact Hb].
  - cbn [init_insert_loop]. unfold bind at 1.
    destruct (Nat.lt_ge_cases (3 + c) sz) as [Hlt|Hge].
    + destruct (insert_new_step h sz c _ Hb Hlt (init_data16_normalized seed i idx0))
        as (h1 & Hrun & Hb1).
      rewrite Hrun.
      destruct (IH sz (S c) h1 seed (to_u32 (i + 1)) idx0 Hb1 ltac:(lia)) as (h' & Hr' & Hb').
      exists h'. replace (c + S count)%nat with (S c + count)%nat by lia.
      split; [exact Hr'|exact Hb'].
    + unfold core_list_insert_new.
      replace (sz <=? 2 + c + 1)%nat with true by (symmetry; apply Nat.leb_le; lia).
      cbn -[init_insert_loop].
      destruct (IH sz c h seed (to_u32 (i + 1)) idx0 Hb Hsz) as (h' & Hr' & Hb').
      exists h'. replace (Nat.min (c + S count) (sz - 3)) with (Nat.min (c + count) (sz - 3)) by lia.
      split; [exact Hr'|exact Hb'].
Qed.

Lemma init_idx_loop_run (seed size : Z) (tl : nat) (ins : list nat) :
  forall (fuel : nat) (finder : option nat) (i : Z) (h : heap),
  chain h finder (ins ++ [tl]) ->
  (forall n, In n ins -> exists nx, nodes h !! n = Some (mk_head nx n)) ->
  (forall n, In n ins -> is_Some (datas h !! n)) ->
  (length ins < fuel)%nat -> 0 <= i -> i + Z.of_nat (length ins) < 2 ^ 32 ->
  exists h', init_idx_loop fuel seed size finder i h = inl (tt, h') /\
    nodes h' = nodes h /\
    (forall r, ~ In r ins -> datas h' !! r = datas h !! r) /\
    (forall t n, nth_error ins t = Some n -> exists d, datas h !! n = Some d /\
       datas h' !! n = Some (mk_data (data16 d) (assigned_idx size seed (i + Z.of_nat t)))).
Proof.
  induction ins as [|n ins IH]; intros fuel finder i h Hc Hnd Hdt Hf Hi Hw.
  - inversion Hc as [|m ndt ? Hm Hrest]; subst. inversion Hrest as [Hnil|]; subst.
    destruct fuel as [|f]; [simpl in Hf; lia|].
    exists h. cbn [init_idx_loop]. unfold bind at 1. rewrite (load_node_run _ _ _ Hm).
    rewrite <- Hnil. split; [reflexivity|]. split; [reflexivity|]. split; [reflexivity|].
    intros t k Ht. destruct t; discriminate.
  - pose proof (chain_NoDup _ _ _ Hc) as Hnod. apply NoDup_cons in Hnod as [Hni _].
    assert (Hni' : ~ In n ins) by (intros Hin; apply Hni, list_elem_of_In, in_or_app; auto).
    inversion Hc as [|m nd ? Hm Hrest]; subst.
    destruct (Hnd n (or_introl eq_refl)) as [nx Hnx]. rewrite Hm in Hnx.
    injection Hnx as ->. cbn [next] in Hrest.
    destruct (Hdt n (or_introl eq_refl)) as [d Hd].
    destruct fuel as [|f]; [simpl in Hf; lia|].
    assert (Hnx : exists k, nx = Some k)
      by (inversion Hrest; [destruct ins; discriminate|eauto]).
    destruct Hnx as [k ->].
    simpl in Hw.
    assert (Hu : to_u32 (i + 1) = i + 1) by (unfold to_u32; apply Z.mod_small; lia).
    set (h1 := mk_heap (nodes h) (<[n := mk_data (data16 d) (assigned_idx size seed i)]> (datas h))).
    assert (Hstep : init_idx_loop (S f) seed size (Some n) i h
                    = init_idx_loop f seed size (Some k) (i + 1) h1).
    { cbn [init_idx_loop]. unfold bind at 1. rewrite (load_node_run _ _ _ Hm).
      cbn [next info]. unfold assigned_idx in h1.
      destruct (i <? size / 5).
      - unfold bind at 1. unfold load_data. rewrite Hd.
        unfold bind at 1. rewrite store_data_run by (rewrite Hd; eauto).
        rewrite Hu. reflexivity.
      - unfold bind at 1. unfold load_data. rewrite Hd.
        unfold bind at 1. rewrite store_data_run by (rewrite Hd; eauto).
        unfold h1. rewrite !Hu. reflexivity. }
    rewrite Hstep.
    destruct (IH f (Some k) (i + 1) h1) as (h' & Hr & Hn' & Hfr & Hix).
    + eapply chain_frame; [exact Hrest|]. reflexivity.
    + intros m Hm'. apply Hnd. right. exact Hm'.
    + intros m Hm'. unfold h1. cbn [datas].
      rewrite lookup_insert_ne by (intros ->; contradiction). apply Hdt. right. exact Hm'.
    + simpl in Hf. lia.
    + lia.
    + lia.
    + exists h'. split; [exact Hr|]. split; [exact Hn'|]. split.
      * intros r Hr'. rewrite Hfr by (intros Hin; apply Hr'; right; exact Hin).
        unfold h1. cbn [datas]. rewrite lookup_insert_ne by (intros ->; apply Hr'; left; reflexivity).
        reflexivity.
      * intros [|t] m Ht.
        -- injection Ht as <-. exists d. split; [exact Hd|].
           rewrite Hfr by exact Hni'. unfold h1. cbn [datas]. rewrite lookup_insert_eq.
           do 3 f_equal. lia.
        -- cbn [nth_error] in Ht.
           assert (Hm' : In m ins) by (eapply nth_error_In; exact Ht).
           destruct (Hix t m Ht) as (d' & Hd' & Hd'').
           unfold h1 in Hd'. cbn [datas] in Hd'.
           rewrite lookup_insert_ne in Hd' by (intros ->; contradiction).
           exists d'. split; [exact Hd'|]. rewrite Hd''. do 3 f_equal. lia.
Qed.

Lemma list_size_range (blksize : Z) :
  100 <= blksize < 2 ^ 32 ->
  list_size blksize = blksize / 20 - 2 /\ 5 <= blksize / 20 < 2 ^ 32.
Proof.
  intros Hb.
  assert (H5 : 5 <= blksize / 20) by (apply Z.div_le_lower_bound; lia).
  assert (H32 : blksize / 20 < 2 ^ 32) by (apply Z.div_lt_upper_bound; lia).
  split; [|lia]. unfold list_size, to_u32. apply Z.mod_small. lia.
Qed.

Lemma build_tail_run (h : heap) (sz : nat) (hd0 : list_data) :
  (3 <= sz)%nat -> nodes h !! 0%nat = Some (mk_head None 0%nat) ->
  datas h !! 0%nat = Some hd0 -> normalized hd0 ->
  (forall j, (1 <= j < sz)%nat -> is_Some (nodes h !! j) /\ is_Some (datas h !! j)) ->
  exists h1, core_list_insert_new (Some 0%nat) (mk_data (to_s16 65535) 32767) 1 1 sz sz h
               = inl ((Some 1%nat, 2%nat, 2%nat), h1) /\
             built_inv h1 sz 0 /\ datas h1 !! 0%nat = Some hd0 /\
             datas h1 !! 1%nat = Some (mk_data (to_s16 65535) 32767).
Proof.
  intros Hsz H0 Hd0 Hn0 Hfree.
  destruct (Hfree 1%nat ltac:(lia)) as [[g Hg] Hgd].
  unfold core_list_insert_new.
  replace (sz <=? 1 + 1)%nat with false by (symmetry; apply Nat.leb_gt; lia).
  cbn -[load_node set_next set_info store_data].
  unfold bind at 1. rewrite (load_node_run _ _ _ H0).
  unfold bind at 1. rewrite (set_next_run _ _ _ _ Hg).
  unfold bind at 1. erewrite set_next_run
    by (cbn [nodes]; rewrite lookup_insert_ne by lia; exact H0).
  unfold bind at 1. erewrite set_info_run
    by (cbn [nodes]; rewrite lookup_insert_ne by lia; apply lookup_insert_eq).
  unfold bind at 1. rewrite store_data_run by exact Hgd.
  eexists; split; [reflexivity|].
  unfold built_inv. cbn [nodes datas next info].
  refine (conj (conj _ (conj _ (conj _ _))) (conj _ _)).
  - eapply chain_cons; [cbn [nodes]; rewrite lookup_insert_ne by lia; apply lookup_insert_eq|].
    cbn [next]. eapply chain_cons; [cbn [nodes]; apply lookup_insert_eq|]. cbn [next].
    apply chain_nil.
  - intros j Hj. destruct (decide (j = 1)%nat) as [->|Hj1]; [eexists; apply lookup_insert_eq|].
    replace j with 0%nat by lia. rewrite lookup_insert_ne by lia. eexists; apply lookup_insert_eq.
  - intros j Hj. destruct (decide (j = 1)%nat) as [->|Hj1].
    + eexists; split; [apply lookup_insert_eq|]. unfold normalized. cbn [data16].
      vm_compute. reflexivity.
    + replace j with 0%nat by lia. rewrite lookup_insert_ne by lia. eauto.
  - intros j Hj. rewrite !lookup_insert_ne by lia. apply Hfree. lia.
  - rewrite lookup_insert_ne by lia. exact Hd0.
  - apply lookup_insert_eq.
Qed.

Lemma core_list_build_run (blksize seed : Z) :
  100 <= blksize < 2 ^ 32 ->
  let sz := Z.to_nat (list_size blksize) in
  let ins := rev (seq 2 (sz - 3)) in
  exists h, core_list_build blksize seed (list_region blksize) = inl (Some 0%nat, h) /\
    chain h (Some 0%nat) (0%nat :: ins ++ [1%nat]) /\
    (forall n, In n (0%nat :: ins ++ [1%nat]) -> exists d, rec_of h n = Some d /\ normalized d) /\
    (forall t n, nth_error ins t = Some n -> exists d, rec_of h n = Some d /\
       idx d = assigned_idx (list_size blksize) seed (1 + Z.of_nat t)).
Proof.
  intros Hb sz ins.
  destruct (list_size_range blksize Hb) as [Hls Hr].
  assert (Hsz : (3 <= sz)%nat) by (unfold sz; rewrite Hls; lia).
  unfold core_list_build, list_region. cbv zeta.
  change (Z.to_nat (list_size blksize)) with sz.
  unfold bind at 1. rewrite (set_next_run _ _ _ None (region_nodes sz 0 ltac:(lia))).
  unfold bind at 1. erewrite set_info_run by (cbn [nodes]; apply lookup_insert_eq).
  unfold bind at 1. rewrite store_data_run
    by (cbn [datas]; rewrite region_datas by lia; eauto).
  unfold bind at 1. cbn [nodes datas next info].
  rewrite insert_insert_eq.
  destruct (build_tail_run (mk_heap (<[0%nat := mk_head None 0%nat]> (nodes (region sz)))
              (<[0%nat := mk_data (to_s16 32896) 0]> (datas (region sz))))
              sz (mk_data (to_s16 32896) 0) Hsz) as (h1 & Hrun1 & Hb1 & Hh0 & Ht1).
  { cbn [nodes]. apply lookup_insert_eq. }
  { cbn [datas]. apply lookup_insert_eq. }
  { unfold normalized. vm_compute. reflexivity. }
  { intros j Hj. cbn [nodes datas]. rewrite !lookup_insert_ne by lia.
    rewrite region_nodes, region_datas by lia. split; eauto. }
  rewrite Hrun1. cbn iota beta.
  destruct (init_insert_loop_run sz sz 0 h1 seed 0 32767 Hb1 Hsz) as (h2 & Hrun2 & Hb2).
  change (2 + 0)%nat with 2%nat in Hrun2.
  unfold bind at 1. cbn [idx]. rewrite Hrun2. cbn iota beta.
  replace (Nat.min (0 + sz) (sz - 3)) with (sz - 3)%nat in Hb2 by lia.
  destruct Hb2 as (Hch2 & Hnd2 & Hdt2 & _).
  inversion Hch2 as [|? nd0 ? H0 Hrest]; subst.
  unfold bind at 1. rewrite (load_node_run _ _ _ H0).
  assert (Hlen : length ins = (sz - 3)%nat) by (unfold ins; rewrite length_rev, length_seq; reflexivity).
  assert (Hins : forall n, In n ins -> (2 <= n < sz - 1)%nat)
    by (intros n Hn; apply in_rev, in_seq in Hn; lia).
  assert (Hinfo : forall n, In n (0%nat :: ins ++ [1%nat]) ->
                  exists nx, nodes h2 !! n = Some (mk_head nx n)).
  { intros n Hn. apply Hnd2. destruct Hn as [<-|Hn]; [lia|].
    apply in_app_or in Hn as [Hn|[<-|[]]]; [apply Hins in Hn|]; lia. }
  pose proof (chain_length _ _ _ Hch2) as Hcl. cbn [length] in Hcl.
  rewrite length_app in Hcl. cbn [length] in Hcl.
  destruct (init_idx_loop_run seed (list_size blksize) 1%nat ins (S (size (nodes h2)))
              (next nd0) 1 h2 Hrest) as (h3 & Hrun3 & Hn3 & Hfr3 & Hix3).
  { intros n Hn. apply Hinfo. right. apply in_or_app. left. exact Hn. }
  { intros n Hn. destruct (Hdt2 n) as (d & Hd & _); [apply Hins in Hn; lia|]. eauto. }
  { fold ins in Hcl. lia. }
  { lia. }
  { rewrite Hlen. unfold sz. rewrite Hls. lia. }
  assert (Hrec : forall n, In n (0%nat :: ins ++ [1%nat]) -> rec_of h3 n = datas h3 !! n).
  { intros n Hn. destruct (Hinfo n Hn) as [nx Hnx]. unfold rec_of. rewrite Hn3, Hnx.
    reflexivity. }
  exists h3. split; [|split; [|split]].
  - unfold bind at 1, node_count. cbn beta iota. unfold bind at 1. rewrite Hrun3. reflexivity.
  - eapply chain_frame; [exact Hch2|]. intros k _. rewrite Hn3. reflexivity.
  - intros n Hn. rewrite (Hrec n Hn).
    destruct (In_dec Nat.eq_dec n ins) as [Hi|Hi].
    + apply In_nth_error in Hi as [t Ht].
      destruct (Hix3 t n Ht) as (d & Hd & Hd').
      destruct (Hdt2 n) as (d2 & Hd2 & Hnm);
        [apply nth_error_In, Hins in Ht; lia|].
      rewrite Hd in Hd2. injection Hd2 as <-.
      rewrite Hd'. eexists; split; [reflexivity|]. exact Hnm.
    + rewrite (Hfr3 n Hi). apply Hdt2.
      destruct Hn as [<-|Hn]; [lia|].
      apply in_app_or in Hn as [Hn|[<-|[]]]; [contradiction|lia].
  - intros t n Ht. destruct (Hix3 t n Ht) as (d & _ & Hd').
    rewrite (Hrec n ltac:(right; apply in_or_app; left; eapply nth_error_In; exact Ht)).
    rewrite Hd'. eexists; split; [reflexivity|]. reflexivity.
Qed.

Lemma Sorted_le_by_ext {A : Type} (f g : A -> A -> Z) (l : list A) :
  (forall a b, In a l -> In b l -> f a b = g a b) ->
  Sorted (le_by f) l -> Sorted (le_by g) l.
Proof.
  intros Hfg Hs. induction Hs as [|a l Hs IH Hhd]; constructor.
  - apply IH. intros x y Hx Hy. apply Hfg; right; assumption.
  - destruct Hhd as [|b l' Hab]; constructor. unfold le_by in *.
    rewrite <- Hfg by (simpl; auto). exact Hab.
Qed.

Lemma sorted_perm_unique {A : Type} (f : A -> A -> Z) (P : A -> Prop)
    (f_trans : forall a b c, P a -> P b -> P c -> f a b <= 0 -> f b c <= 0 -> f a c <= 0)
    (f_antisym : forall a b, P a -> P b -> f a b <= 0 -> f b a <= 0 -> a = b) :
  forall l1 l2, (forall x, In x l1 -> P x) -> Permutation l1 l2 ->
  Sorted (le_by f) l1 -> Sorted (le_by f) l2 -> l1 = l2.
Proof.
  induction l1 as [|a l1 IH]; intros l2 HP Hp H1 H2.
  - symmetry. apply Permutation_nil. exact Hp.
  - destruct l2 as [|b l2]; [apply Permutation_sym, Permutation_nil in Hp; discriminate|].
    assert (HP2 : forall x, In x (b :: l2) -> P x)
      by (intros x Hx; apply HP; apply (Permutation_in _ (Permutation_sym Hp)); exact Hx).
    assert (HF1 : Forall P (a :: l1)) by (apply Forall_forall; intros x Hx; apply HP, list_elem_of_In, Hx).
    assert (HF2 : Forall P (b :: l2)) by (apply Forall_forall; intros x Hx; apply HP2, list_elem_of_In, Hx).
    assert (Hab : a = b).
    { pose proof (Permutation_in a Hp (or_introl eq_refl)) as Ha.
      pose proof (Permutation_in b (Permutation_sym Hp) (or_introl eq_refl)) as Hb.
      destruct Ha as [->|Ha]; [reflexivity|]. destruct Hb as [<-|Hb]; [reflexivity|].
      apply f_antisym.
      - apply HP. left. reflexivity.
      - apply HP2. left. reflexivity.
      - exact (sorted_head_le f P f_trans a l1 HF1 H1 b Hb).
      - exact (sorted_head_le f P f_trans b l2 HF2 H2 a Ha). }
    subst b. f_equal. apply IH.
    + intros x Hx. apply HP. right. exact Hx.
    + apply Permutation_cons_inv in Hp. exact Hp.
    + apply Sorted_inv in H1. apply H1.
    + apply Sorted_inv in H2. apply H2.
Qed.

Lemma NoDup_map_inj_on {A B : Type} (g : A -> B) (l : list A) (a b : A) :
  NoDup (map g l) -> In a l -> In b l -> g a = g b -> a = b.
Proof.
  induction l as [|x l IH]; intros Hnd Ha Hb Hg; [destruct Ha|].
  cbn [map] in Hnd. apply NoDup_cons in Hnd as [Hx Hnd].
  destruct Ha as [<-|Ha]; destruct Hb as [<-|Hb]; try reflexivity.
  - exfalso. apply Hx, list_elem_of_In, in_map_iff. exists b. auto.
  - exfalso. apply Hx, list_elem_of_In, in_map_iff. exists a. auto.
  - apply IH; assumption.
Qed.

Lemma load_data_run (h : heap) (r : nat) (d : list_data) :
  datas h !! r = Some d -> load_data r h = inl (d, h).
Proof. intros Hr. unfold load_data. rewrite Hr. reflexivity. Qed.

Lemma list_seq_fold (h : heap) (ns : list nat) :
  (forall n, In n ns -> has_record h n) ->
  fold_right (fun n acc =>
      nd <- load_node (Some n) ;; d <- load_data (info nd) ;;
      rest <- acc ;; ret ((idx d, data16 d) :: rest)) (ret []) ns h
  = inl (map (seq_entry h) ns, h).
Proof.
  induction ns as [|n ns IH]; intros Hr; [reflexivity|].
  destruct (Hr n (or_introl eq_refl)) as [d Hd].
  pose proof Hd as Hd'. apply rec_of_inv in Hd' as (nd & Hn & Hdn).
  cbn [fold_right map]. unfold bind at 1. rewrite (load_node_run _ _ _ Hn).
  unfold bind at 1. rewrite (load_data_run _ _ _ Hdn).
  unfold bind at 1. rewrite IH by (intros m Hm; apply Hr; right; exact Hm).
  replace (seq_entry h n) with (idx d, data16 d) by (unfold seq_entry; rewrite Hd; reflexivity).
  reflexivity.
Qed.

Lemma list_seq_run (h : heap) (p : option nat) (ns : list nat) :
  chain h p ns -> (forall n, In n ns -> has_record h n) ->
  list_seq p h = inl (map (seq_entry h) ns, h).
Proof.
  intros Hc Hr. unfold list_seq. unfold bind at 1. rewrite (chain_nodes_chain _ _ _ Hc).
  apply list_seq_fold. exact Hr.
Qed.

Lemma core_list_init_run (blksize seed : Z) :
  100 <= blksize < 2 ^ 32 ->
  exists hd ns h, core_list_init blksize seed (list_region blksize) = inl (Some hd, h) /\
    chain h (Some hd) (hd :: ns) /\
    length (hd :: ns) = (Z.to_nat (list_size blksize) - 1)%nat /\
    Sorted (le_by (fun a b => idx_of h a - idx_of h b)) (hd :: ns) /\
    (forall n, In n (hd :: ns) -> exists d, rec_of h n = Some d /\ normalized d).
Proof.
  intros Hb.
  destruct (core_list_build_run blksize seed Hb) as (hb & Hrun & Hch & Hnorm & _).
  set (L := 0%nat :: rev (seq 2 (Z.to_nat (list_size blksize) - 3)) ++ [1%nat]) in *.
  destruct (core_list_mergesort_run cmp_idx_null (fun a b => idx_of hb a - idx_of hb b)
              hb (Some 0%nat) L Hch ltac:(discriminate))
    as (n0 & ns' & h' & Hms & Hch' & Hperm & Hsort & _ & Hrec).
  - intros a b Ha Hb'.
    destruct (Hnorm a Ha) as (da & Hda & Na). destruct (Hnorm b Hb') as (db & Hdb & Nb).
    unfold idx_of. rewrite Hda, Hdb. apply node_cmp_normalized; assumption.
  - intros a b _ _. lia.
  - intros a b c _ _ _. lia.
  - exists n0, ns', h'. split; [|split; [exact Hch'|split; [|split]]].
    + unfold core_list_init. unfold bind at 1. rewrite Hrun. exact Hms.
    + rewrite <- (Permutation_length Hperm). unfold L. cbn [length].
      rewrite length_app, length_rev, length_seq. cbn [length].
      destruct (list_size_range blksize Hb) as [Hls Hr]. rewrite Hls. lia.
    + eapply Sorted_le_by_ext; [|exact Hsort].
      intros a b _ _. unfold idx_of. rewrite !Hrec. reflexivity.
    + intros n Hn. rewrite Hrec. apply Hnorm.
      apply (Permutation_in _ (Permutation_sym Hperm)). exact Hn.
Qed.

Lemma to_s16_small (z : Z) : 0 <= z < 32768 -> to_s16 z = z.
Proof.
  intros Hz. unfold to_s16. rewrite Z.mod_small by lia.
  destruct (z >=? 32768) eqn:E; [apply Z.geb_le in E; lia|reflexivity].
Qed.

Lemma to_u16_lxor_u32 (i s : Z) : to_u16 (Z.lxor i (to_u32 s)) = Z.land (Z.lxor i s) 65535.
Proof.
  unfold to_u16, to_u32. change 65536 with (2 ^ 16). change 4294967296 with (2 ^ 32).
  change 65535 with (Z.ones 16). rewrite <- !Z.land_ones by lia.
  apply Z.bits_inj'. intros n Hn.
  rewrite !Z.land_spec, !Z.lxor_spec, !Z.land_spec, !Z.testbit_ones_nonneg by lia.
  destruct (n <? 16) eqn:E; [|rewrite !andb_false_r; reflexivity].
  apply Z.ltb_lt in E. replace (n <? 32) with true by (symmetry; apply Z.ltb_lt; lia).
  rewrite !andb_true_r. reflexivity.
Qed.

Lemma land_16383_range (x : Z) : 0 <= Z.land 16383 x < 32768.
Proof.
  rewrite Z.land_comm. change 16383 with (Z.ones 14). rewrite Z.land_ones by lia.
  pose proof (Z.mod_pos_bound x (2 ^ 14) ltac:(lia)). lia.
Qed.

(** ** Claims *)

(** C1 (code bug). On the empty list ([list == NULL]) no pass merges
    anything, [tail] stays NULL and the statement [tail->next = NULL]
    dereferences it: [core_list_mergesort] faults instead of returning the
    empty list, despite the comment "allow for nmerges==0, the empty list
    case". *)
Theorem core_list_mergesort_empty_faults {St : Type} `{HeapState St}
    (cmp : nat -> nat -> M St Z) (s : St) :
  core_list_mergesort cmp None s = inr NullDeref.
Proof. reflexivity. Qed.

(** X1. On a nonempty list, with a comparator that returns [f a b] on the
    list's nodes without changing the memory, where [f] is a total preorder,
    [core_list_mergesort] returns a chain that is a permutation of the input
    nodes, sorted by [f], stable (every class of [f]-equal nodes keeps its
    input order), and leaves every node's record as it was. *)
Theorem core_list_mergesort_nonempty_sorted_stable (cmp : nat -> nat -> M heap Z)
    (f : nat -> nat -> Z) (h : heap) (p : option nat) (ns : list nat) :
  chain h p ns -> ns <> [] ->
  (forall a b, In a ns -> In b ns -> node_cmp cmp a b h = inl (f a b, h)) ->
  (forall a b, In a ns -> In b ns -> f a b <= 0 \/ f b a <= 0) ->
  (forall a b c, In a ns -> In b ns -> In c ns -> f a b <= 0 -> f b c <= 0 -> f a c <= 0) ->
  exists n0 ns' h', core_list_mergesort cmp p h = inl (Some n0, h') /\
    chain h' (Some n0) (n0 :: ns') /\ Permutation ns (n0 :: ns') /\
    Sorted (le_by f) (n0 :: ns') /\
    (forall x, In x ns -> List.filter (eqv_by f x) (n0 :: ns') = List.filter (eqv_by f x) ns) /\
    (forall k, rec_of h' k = rec_of h k).
Proof.
  intros Hc Hne Hcmp Htot Htrans.
  destruct (core_list_mergesort_run cmp f h p ns Hc Hne Hcmp Htot Htrans)
    as (n0 & ns' & h' & Hr & Hc' & Hp & Hs & Hf & Hrec).
  exists n0, ns', h'. split; [exact Hr|]. split; [exact Hc'|]. split; [exact Hp|].
  split; [exact Hs|]. split; [|exact Hrec].
  intros x Hx. apply Hf. intros y z Hy Hz Ey Ez. unfold eqv_by in Ey, Ez.
  apply andb_prop in Ey as [Ey1 Ey2]. apply andb_prop in Ez as [Ez1 Ez2].
  apply Z.leb_le in Ey1, Ey2, Ez1, Ez2.
  exact (Htrans y x z Hy Hx Hz Ey2 Ez1).
Qed.

(** C3 (code bug). With [seed1 = 0], [seed2 = 0], [seed3 = 0x66] and 2000
    bytes per algorithm, the list checksum after the first iteration (the
    [crcu16] of the results of [core_bench_list] with [finder_idx = 1] and
    [finder_idx = -1]) is [0xc9bf] (51647), not the reference [0xd4b0]. *)
Theorem coremark_crclist_seed_0_0_66 : coremark_crclist 0 0 102 2000 1 = inl 51647.
Proof. vm_compute. reflexivity. Qed.

(** C4 (amended). In the walk of [core_list_init] that assigns [idx], the
    interior node at position [i] (counting from [1] after the head) gets
    [idx = i] (as an [ee_s16]) while [i < size / 5], and otherwise
    [0x3fff & ((((i + 1) & 7) << 8) | ((i ^ seed) & 0xffff))]: the counter is
    incremented between the two uses. *)
Theorem core_list_init_idx_ranks (blksize seed : Z) :
  100 <= blksize < 2 ^ 32 ->
  exists h ins, core_list_build blksize seed (list_region blksize) = inl (Some 0%nat, h) /\
    chain h (Some 0%nat) (0%nat :: ins ++ [1%nat]) /\
    Z.of_nat (length ins) = list_size blksize - 3 /\
    forall t n, nth_error ins t = Some n ->
      exists d, rec_of h n = Some d /\
        idx d = (if Z.of_nat (S t) <? list_size blksize / 5 then to_s16 (Z.of_nat (S t))
                 else Z.land 16383 (Z.lor (Z.shiftl (Z.land (Z.of_nat (S t) + 1) 7) 8)
                                          (Z.land (Z.lxor (Z.of_nat (S t)) seed) 65535))).
Proof.
  intros Hb.
  destruct (list_size_range blksize Hb) as [Hls Hr].
  destruct (core_list_build_run blksize seed Hb) as (h & Hrun & Hch & _ & Hidx).
  assert (Hlen : length (rev (seq 2 (Z.to_nat (list_size blksize) - 3)))
                 = (Z.to_nat (list_size blksize) - 3)%nat)
    by (rewrite length_rev, length_seq; reflexivity).
  exists h, (rev (seq 2 (Z.to_nat (list_size blksize) - 3))).
  split; [exact Hrun|]. split; [exact Hch|]. split.
  - rewrite Hlen. rewrite Hls. lia.
  - intros t n Ht. destruct (Hidx t n Ht) as (d & Hd & Hi). exists d. split; [exact Hd|].
    assert (Ht' : (t < Z.to_nat (list_size blksize) - 3)%nat)
      by (rewrite <- Hlen; apply nth_error_Some; rewrite Ht; discriminate).
    rewrite Hi. unfold assigned_idx.
    replace (1 + Z.of_nat t) with (Z.of_nat (S t)) by lia.
    destruct (Z.of_nat (S t) <? list_size blksize / 5); [reflexivity|].
    rewrite to_u16_lxor_u32. unfold to_u32 at 1.
    rewrite (Z.mod_small (Z.of_nat (S t) + 1)) by (rewrite Hls in Ht'; lia).
    apply to_s16_small, land_16383_range.
Qed.

(** C5 (amended). For [100 <= blksize < 2^32], [size = blksize / 20 - 2]
    ([per_item = 16 + sizeof(list_data) = 20]) and the list built by
    [core_list_init] has [size - 3 = blksize / 20 - 5] interior nodes besides
    the head and the tail: [core_list_insert_new] refuses a node when only
    one cell is left. *)
Theorem core_list_init_interior_count (blksize seed : Z) :
  100 <= blksize < 2 ^ 32 ->
  list_size blksize = blksize / 20 - 2 /\
  exists hd ns h, core_list_init blksize seed (list_region blksize) = inl (Some hd, h) /\
    chain h (Some hd) ns /\
    Z.of_nat (length ns) - 2 = list_size blksize - 3 /\
    Z.of_nat (length ns) - 2 = blksize / 20 - 5.
Proof.
  intros Hb. destruct (list_size_range blksize Hb) as [Hls Hr]. split; [exact Hls|].
  destruct (core_list_init_run blksize seed Hb) as (hd & ns & h & Hrun & Hch & Hlen & _).
  exists hd, (hd :: ns), h. split; [exact Hrun|]. split; [exact Hch|].
  rewrite Hlen. rewrite Hls. lia.
Qed.

(** C7 (amended). On a one-node list, the merge sort makes a single pass
    whose merge count [nmerges] is [1] (one merge with an empty right run,
    no comparison), and [core_list_mergesort] returns the node with the
    memory unchanged. *)
Theorem core_list_mergesort_singleton (cmp : nat -> nat -> M heap Z) (h : heap)
    (n : nat) (nd : list_head) :
  nodes h !! n = Some nd -> next nd = None ->
  mergesort (node_cmp cmp) [n] h = inl (([n], [1%nat]), h) /\
  core_list_mergesort cmp (Some n) h = inl (Some n, h).
Proof.
  intros Hn Hnx. split; [reflexivity|].
  assert (Hc : chain h (Some n) [n]) by (econstructor; [exact Hn|rewrite Hnx; constructor]).
  unfold core_list_mergesort. unfold bind at 1. unfold lift at 1. cbn [get_heap set_heap heap_HeapState].
  rewrite (chain_nodes_chain _ _ _ Hc). unfold bind at 1.
  change (mergesort (node_cmp cmp) [n] h) with (inl (([n], [1%nat]), h) : (list nat * list nat * heap) + fault).
  cbn [fst]. unfold lift, relink, relink_from. cbn [get_heap set_heap heap_HeapState].
  unfold bind at 1. rewrite (set_next_run _ _ _ _ Hn). cbn.
  destruct h as [hn hd]. cbn [nodes] in *. do 3 f_equal. rewrite <- Hnx.
  destruct nd as [nx ni]. apply insert_id. exact Hn.
Qed.

(** For a list built by [core_list_init] whose nodes carry pairwise
    distinct [idx] values, reversing it and then sorting it with
    [cmp_idx] gives the same [(idx, data16)] sequence as sorting it directly. *)
Theorem sort_reversed_eq_sort_direct (blksize seed : Z) (hd : nat) (h : heap) (ns : list nat) :
  100 <= blksize < 2 ^ 32 ->
  core_list_init blksize seed (list_region blksize) = inl (Some hd, h) ->
  chain h (Some hd) ns ->
  NoDup (map (idx_of h) ns) ->
  exists q h1 h2, sort_reversed (Some hd) h = inl (q, h1) /\ sort_direct (Some hd) h = inl (q, h2).
Proof.
  intros Hb Hinit Hch Hdist.
  destruct (core_list_init_run blksize seed Hb) as (hd' & ns1 & h' & Hinit' & Hch1 & _ & _ & Hnorm).
  rewrite Hinit in Hinit'. injection Hinit' as <- <-.
  pose proof (chain_det _ _ _ _ Hch Hch1) as ->.
  set (L := hd :: ns1) in *.
  set (f := fun a b => idx_of h a - idx_of h b).
  assert (Hcmp : forall h0, (forall k, rec_of h0 k = rec_of h k) ->
                 forall a b, In a L -> In b L -> node_cmp cmp_idx_null a b h0 = inl (f a b, h0)).
  { intros h0 Hr a b Ha Hb'.
    destruct (Hnorm a Ha) as (da & Hda & Na). destruct (Hnorm b Hb') as (db & Hdb & Nb).
    unfold f, idx_of. rewrite Hda, Hdb.
    apply node_cmp_normalized; [rewrite Hr; exact Hda|rewrite Hr; exact Hdb|exact Na|exact Nb]. }
  assert (Htot : forall a b, f a b <= 0 \/ f b a <= 0) by (intros; unfold f; lia).
  assert (Htrans : forall a b c, f a b <= 0 -> f b c <= 0 -> f a c <= 0)
    by (intros a b c; unfold f; lia).
  destruct (core_list_mergesort_run cmp_idx_null f h (Some hd) L Hch1 ltac:(discriminate)
              (Hcmp h (fun _ => eq_refl)) (fun a b _ _ => Htot a b)
              (fun a b c _ _ _ => Htrans a b c))
    as (n0 & ns2 & h2 & Hms2 & Hch2 & Hp2 & Hs2 & _ & Hr2).
  pose proof (chain_length _ _ _ Hch1) as Hlen.
  destruct (reverse_loop_run L (S (size (nodes h))) (Some hd) None [] h Hch1 ltac:(constructor)
              ltac:(rewrite app_nil_r; exact (chain_NoDup _ _ _ Hch1)) ltac:(lia))
    as (r & h3 & Hrev & Hch3 & Hr3).
  rewrite app_nil_r in Hch3.
  assert (HinL : forall x, In x (rev L) -> In x L) by (intros x Hx; apply in_rev; exact Hx).
  destruct (core_list_mergesort_run cmp_idx_null f h3 r (rev L) Hch3
              ltac:(unfold L; simpl; intros He; apply app_eq_nil in He as [_ He]; discriminate)
              (fun a b Ha Hb' => Hcmp h3 Hr3 a b (HinL a Ha) (HinL b Hb'))
              (fun a b _ _ => Htot a b) (fun a b c _ _ _ => Htrans a b c))
    as (n1 & ns3 & h4 & Hms4 & Hch4 & Hp4 & Hs4 & _ & Hr4).
  assert (Heq : n1 :: ns3 = n0 :: ns2).
  { apply (sorted_perm_unique f (fun x => In x L)).
    - intros a b c _ _ _. apply Htrans.
    - intros a b Ha Hb' Hab Hba. apply (NoDup_map_inj_on (idx_of h) L a b Hdist Ha Hb').
      unfold f in Hab, Hba. lia.
    - intros x Hx. apply HinL. apply (Permutation_in _ (Permutation_sym Hp4)). exact Hx.
    - rewrite <- Hp4, <- Hp2. apply Permutation_sym, Permutation_rev.
    - exact Hs4.
    - exact Hs2. }
  injection Heq as -> ->.
  assert (Hrec : forall h0, (forall k, rec_of h0 k = rec_of h k) ->
                 forall n, In n (n0 :: ns2) -> has_record h0 n).
  { intros h0 Hr n Hn. unfold has_record. rewrite Hr.
    destruct (Hnorm n (Permutation_in _ (Permutation_sym Hp2) Hn)) as (d & Hd & _). eauto. }
  assert (Hr4' : forall k, rec_of h4 k = rec_of h k) by (intros k; rewrite Hr4; apply Hr3).
  exists (map (seq_entry h) (n0 :: ns2)), h4, h2. split.
  - unfold sort_reversed, core_list_reverse. unfold bind at 2, node_count.
    unfold bind at 1. cbn beta. rewrite Hrev. unfold bind at 1. rewrite Hms4.
    rewrite (list_seq_run _ _ _ Hch4 (Hrec h4 Hr4')).
    do 2 f_equal. apply map_ext. intros n. unfold seq_entry. rewrite Hr4'. reflexivity.
  - unfold sort_direct. unfold bind at 1. rewrite Hms2.
    rewrite (list_seq_run _ _ _ Hch2 (Hrec h2 Hr2)).
    do 2 f_equal. apply map_ext. intros n. unfold seq_entry. rewrite Hr2. reflexivity.
Qed.

(** C8. With [blksize = 240] and [seed = 7] ([size = 10], so [size / 5 = 2]),
    the walk of [core_list_init] gives the node at position [i = 7] the
    scrambled rank [0x3fff & ((((i + 1) & 7) << 8) | (i ^ seed)) = 0]: the
    head's [idx], below the one sequenced rank [1], against the comment
    "make sure the mixed items end up after the ones in sequence". The built
    list reads [idx] 0, 0, 1, ...; since two nodes share [idx = 0], sorting
    the reversed list by [cmp_idx] and sorting the list directly give
    different [(idx, data16)] sequences. *)
Theorem core_list_init_scrambled_rank_below_prefix :
  list_size 240 / 5 = 2 /\
  Z.land 16383 (Z.lor (Z.shiftl (Z.land (7 + 1) 7) 8) (Z.land (Z.lxor 7 7) 65535)) = 0 /\
  exists hd h q hq q1 h1 q2 h2,
    core_list_init 240 7 (list_region 240) = inl (Some hd, h) /\
    list_seq (Some hd) h = inl (q, hq) /\
    map fst q = [0; 0; 1; 773; 1028; 1283; 1538; 1793; 32767] /\
    firstn 3 q = [(0, -32640); (0, 14392); (1, 3598)] /\
    sort_reversed (Some hd) h = inl (q1, h1) /\ sort_direct (Some hd) h = inl (q2, h2) /\
    q1 <> q2.
Proof.
  split; [vm_compute; reflexivity|]. split; [vm_compute; reflexivity|].
  destruct (core_list_init 240 7 (list_region 240)) as [[[hd|] h]|e] eqn:E.
  2, 3: vm_compute in E; discriminate E.
  pose proof E as E'. vm_compute in E'. injection E' as Hhd Hh. subst hd.
  destruct (list_seq (Some 0%nat) h) as [[q hq]|e] eqn:E0.
  2: subst h; vm_compute in E0; discriminate E0.
  destruct (sort_reversed (Some 0%nat) h) as [[q1 h1]|e] eqn:E1.
  2: subst h; vm_compute in E1; discriminate E1.
  destruct (sort_direct (Some 0%nat) h) as [[q2 h2]|e] eqn:E2.
  2: subst h; vm_compute in E2; discriminate E2.
  exists 0%nat, h, q, hq, q1, h1, q2, h2.
  split; [reflexivity|]. split; [exact E0|].
  subst h. vm_compute in E0. injection E0 as <- _.
  split; [reflexivity|]. split; [reflexivity|]. split; [exact E1|]. split; [exact E2|].
  vm_compute in E1. vm_compute in E2.
  injection E1 as <- _. injection E2 as <- _. discriminate.
Qed.

(** ** Further properties *)

(** *** More on reversing a chain *)

(** The two chains of the same nodes start at the same pointer. *)
Lemma chain_head (h h' : heap) (p q : option nat) (ns : list nat) :
  chain h p ns -> chain h' q ns -> p = q.
Proof. intros H1 H2. inversion H1; inversion H2; subst; congruence. Qed.

(** Two memories whose chains from [p] visit the same nodes, and whose nodes
    hold the same records, agree on those nodes. *)
Lemma chain_same_nodes (h h' : heap) (p : option nat) (ns : list nat) :
  chain h p ns -> chain h' p ns ->
  (forall k, option_map info (nodes h' !! k) = option_map info (nodes h !! k)) ->
  forall k, In k ns -> nodes h' !! k = nodes h !! k.
Proof.
  intros H1. revert h'. induction H1 as [|n nd ns Hn Hc IH]; intros h' H2 Hinfo k Hk;
    [destruct Hk|].
  inversion H2 as [|? nd' ? Hn' Hc']; subst.
  destruct Hk as [<-|Hk].
  - rewrite Hn, Hn'. specialize (Hinfo n). rewrite Hn, Hn' in Hinfo.
    injection Hinfo as Hi. pose proof (chain_head _ _ _ _ _ Hc' Hc) as E.
    destruct nd, nd'; simpl in *; subst; reflexivity.
  - apply (IH h'); auto. rewrite (chain_head _ _ _ _ _ Hc Hc'). exact Hc'.
Qed.

(** What [reverse_loop] does to the memory: it reverses the chain, keeps the
    records, the [info] of every node and every node off the chain. *)
Lemma reverse_loop_frame (ns : list nat) :
  forall fuel lst nxt acc h, chain h lst ns -> chain h nxt acc -> NoDup (ns ++ acc) ->
  (length ns <= fuel)%nat ->
  exists r h', reverse_loop fuel lst nxt h = inl (r, h') /\ chain h' r (rev ns ++ acc) /\
    datas h' = datas h /\
    (forall k, option_map info (nodes h' !! k) = option_map info (nodes h !! k)) /\
    (forall k, ~ In k ns -> nodes h' !! k = nodes h !! k).
Proof.
  induction ns as [|n ns IH]; intros fuel lst nxt acc h Hc Hacc Hnd Hf.
  - inversion Hc; subst. exists nxt, h. destruct fuel; simpl; auto.
  - inversion Hc as [|? nd ? Hn Hc']; subst.
    destruct fuel as [|fu]; simpl in Hf; [lia|].
    inversion Hnd as [|? ? Hnin Hnd']; subst.
    set (h1 := mk_heap (<[n := mk_head nxt (info nd)]> (nodes h)) (datas h)).
    assert (Hnot : forall k, In k (ns ++ acc) -> nodes h1 !! k = nodes h !! k).
    { intros k Hk. unfold h1. simpl. apply lookup_insert_ne. intros ->.
      apply Hnin, list_elem_of_In, Hk. }
    destruct (IH fu (next nd) (Some n) (n :: acc) h1)
      as (r & h' & Hr & Hc2 & Hd & Hinfo & Hout).
    + apply (chain_frame h); [exact Hc'|]. intros k Hk. apply Hnot, in_or_app. left. exact Hk.
    + econstructor; [unfold h1; simpl; apply lookup_insert_eq|].
      apply (chain_frame h); [exact Hacc|]. intros k Hk. apply Hnot, in_or_app. right. exact Hk.
    + apply NoDup_app in Hnd' as (Hd1 & Hdisj & Hd2). apply NoDup_app. split; [exact Hd1|].
      split.
      * intros k Hk1 Hk2. apply list_elem_of_In in Hk2. destruct Hk2 as [<-|Hk2].
        -- apply Hnin, list_elem_of_In, in_or_app. left. apply list_elem_of_In, Hk1.
        -- apply (Hdisj k Hk1). apply list_elem_of_In, Hk2.
      * constructor; [|exact Hd2]. intros Hk. apply Hnin, list_elem_of_In, in_or_app.
        right. apply list_elem_of_In, Hk.
    + lia.
    + exists r, h'. split; [|split; [|split; [|split]]].
      * cbn [reverse_loop]. unfold bind at 1, load_node at 1. rewrite Hn.
        unfold bind. rewrite (set_next_run h n nd nxt Hn). exact Hr.
      * simpl. rewrite <- app_assoc. exact Hc2.
      * rewrite Hd. reflexivity.
      * intros k. rewrite Hinfo. unfold h1. simpl. rewrite lookup_insert.
        case_decide; subst; [rewrite Hn|]; reflexivity.
      * intros k Hk. rewrite Hout by (intros Hk'; apply Hk; right; exact Hk').
        unfold h1. simpl. apply lookup_insert_ne. intros ->. apply Hk. left. reflexivity.
Qed.

Lemma core_list_reverse_frame (h : heap) (p : option nat) (ns : list nat) :
  chain h p ns ->
  exists r h', core_list_reverse p h = inl (r, h') /\ chain h' r (rev ns) /\
    datas h' = datas h /\
    (forall k, option_map info (nodes h' !! k) = option_map info (nodes h !! k)) /\
    (forall k, ~ In k ns -> nodes h' !! k = nodes h !! k).
Proof.
  intros Hc. unfold core_list_reverse, bind, node_count.
  destruct (reverse_loop_frame ns (S (size (nodes h))) p None [] h Hc (chain_nil h))
    as (r & h' & Hr & Hc' & Hrest).
  - rewrite app_nil_r. apply (chain_NoDup _ _ _ Hc).
  - pose proof (chain_length _ _ _ Hc). lia.
  - exists r, h'. rewrite app_nil_r in Hc'. auto.
Qed.

(** [core_list_reverse] on a well-formed list: the nodes are relinked in the
    reverse order; no record is written, every node keeps its [info]
    pointer (so its record), and the nodes off the list are untouched. *)
Theorem core_list_reverse_reverses (h : heap) (p : option nat) (ns : list nat) :
  chain h p ns ->
  exists r h', core_list_reverse p h = inl (r, h') /\ chain h' r (rev ns) /\
    datas h' = datas h /\
    (forall k, option_map info (nodes h' !! k) = option_map info (nodes h !! k)) /\
    (forall k, rec_of h' k = rec_of h k) /\
    (forall k, ~ In k ns -> nodes h' !! k = nodes h !! k).
Proof.
  intros Hc. destruct (core_list_reverse_frame h p ns Hc)
    as (r & h' & Hr & Hc' & Hd & Hinfo & Hout).
  exists r, h'. split; [exact Hr|]. split; [exact Hc'|]. split; [exact Hd|].
  split; [exact Hinfo|]. split; [|exact Hout].
  intros k. unfold rec_of. rewrite Hd. specialize (Hinfo k).
  destruct (nodes h' !! k), (nodes h !! k); simpl in Hinfo; try discriminate; [|reflexivity].
  injection Hinfo as ->. reflexivity.
Qed.

(** Reversing a well-formed list twice gives back the original head pointer
    and the original memory, exactly. *)
Theorem core_list_reverse_twice (h : heap) (p : option nat) (ns : list nat) :
  chain h p ns ->
  exists r h1, core_list_reverse p h = inl (r, h1) /\ core_list_reverse r h1 = inl (p, h).
Proof.
  intros Hc.
  destruct (core_list_reverse_frame h p ns Hc) as (r & h1 & Hr & Hc1 & Hd1 & Hi1 & Ho1).
  destruct (core_list_reverse_frame h1 r (rev ns) Hc1) as (q & h2 & Hq & Hc2 & Hd2 & Hi2 & Ho2).
  rewrite rev_involutive in Hc2.
  assert (Hqp : q = p) by exact (chain_head _ _ _ _ _ Hc2 Hc). subst q.
  assert (Hh : h2 = h).
  { destruct h2 as [n2 d2], h as [n0 d0]. cbn [nodes datas] in *. f_equal; [|congruence].
    apply map_eq. intros k.
    destruct (in_dec Nat.eq_dec k ns) as [Hk|Hk].
    - apply (chain_same_nodes (mk_heap n0 d0) (mk_heap n2 d2) p ns Hc Hc2); [|exact Hk].
      intros j. cbn [nodes]. rewrite Hi2. apply Hi1.
    - rewrite Ho2 by (rewrite <- in_rev; exact Hk). apply Ho1. exact Hk. }
  subst h2. exists r, h1. auto.
Qed.

(** *** [core_list_remove] and [core_list_insert_new] on a chain *)

(** A chain whose nodes before [n] are untouched still reaches [n]. *)
Lemma chain_replace_tail (h h' : heap) (p : option nat) (pre rest rest' : list nat) (n : nat) :
  chain h p (pre ++ n :: rest) -> chain h' (Some n) (n :: rest') ->
  (forall k, In k pre -> nodes h' !! k = nodes h !! k) -> chain h' p (pre ++ n :: rest').
Proof.
  revert p. induction pre as [|a pre IH]; intros p Hc Hn Hfr; simpl in *.
  - inversion Hc; subst. exact Hn.
  - inversion Hc as [|? nd ? Ha Hc']; subst. econstructor.
    + rewrite Hfr by (left; reflexivity). exact Ha.
    + apply IH; [exact Hc'|exact Hn|]. intros k Hk. apply Hfr. right. exact Hk.
Qed.

Lemma core_list_remove_run (h : heap) (n m : nat) (nd md : list_head) :
  nodes h !! n = Some nd -> next nd = Some m -> nodes h !! m = Some md -> n <> m ->
  core_list_remove (Some n) h
  = inl (Some m, mk_heap (<[m := mk_head None (info nd)]>
                            (<[n := mk_head (next md) (info md)]> (nodes h))) (datas h)).
Proof.
  intros Hn Hnx Hm Hnm. destruct h as [ns ds]; simpl in *.
  unfold core_list_remove, set_info, set_next, bind, ret, load_node, store_node; simpl.
  repeat progress (cbn [nodes datas next info]; rewrite ?Hn, ?Hm, ?Hnx; heap_lookups).
  do 3 f_equal. apply map_eq. intros k. rewrite !lookup_insert.
  repeat case_decide; subst; congruence.
Qed.

(** [core_list_remove(n)] for a node [n] of a well-formed list with a
    successor [m]: [n] takes over the record of [m], [m] is unlinked and
    returned with the record of [n] and a NULL [next]; the records along the
    list are those before, minus the one of [n]. *)
Theorem core_list_remove_unlinks (h : heap) (lst : option nat) (pre post : list nat)
    (n m : nat) :
  chain h lst (pre ++ n :: m :: post) ->
  exists h1, core_list_remove (Some n) h = inl (Some m, h1) /\
    chain h1 lst (pre ++ n :: post) /\
    map (rec_of h1) (pre ++ n :: post) = map (rec_of h) (pre ++ m :: post) /\
    chain h1 (Some m) [m] /\ rec_of h1 m = rec_of h n.
Proof.
  intros Hc. pose proof (chain_NoDup _ _ _ Hc) as Hnd.
  apply NoDup_ListNoDup in Hnd.
  pose proof (NoDup_remove_2 _ _ _ Hnd) as Hn_out.
  assert (Hm_out : ~ In m ((pre ++ [n]) ++ post)).
  { apply NoDup_remove_2. rewrite <- app_assoc. exact Hnd. }
  assert (Hnm : n <> m) by (intros ->; apply Hn_out; apply in_or_app; right; left; reflexivity).
  assert (Hpre : forall k, In k pre -> k <> n /\ k <> m).
  { intros k Hk. split; intros ->; [apply Hn_out|apply Hm_out]; apply in_or_app; left;
      [exact Hk|apply in_or_app; left; exact Hk]. }
  assert (Hpost : forall k, In k post -> k <> n /\ k <> m).
  { intros k Hk. split; intros ->; [apply Hn_out|apply Hm_out]; apply in_or_app; right;
      [right; exact Hk|exact Hk]. }
  pose proof (chain_suffix _ _ _ _ _ Hc) as Hs.
  inversion Hs as [|? nd ? Hn Hs1]; subst.
  inversion Hs1 as [|? md ? Hm Hs2 Hnx]; subst.
  eexists. split; [apply (core_list_remove_run h n m nd md Hn (eq_sym Hnx) Hm Hnm)|].
  set (h1 := mk_heap _ _).
  assert (Hrec : forall k, k <> n -> k <> m -> rec_of h1 k = rec_of h k).
  { intros k Hk1 Hk2. unfold rec_of, h1. cbn [nodes datas].
    rewrite !lookup_insert_ne by congruence. reflexivity. }
  assert (Hfr : forall k, k <> n -> k <> m -> nodes h1 !! k = nodes h !! k).
  { intros k Hk1 Hk2. unfold h1. cbn [nodes]. rewrite !lookup_insert_ne by congruence.
    reflexivity. }
  split; [|split; [|split]].
  - apply (chain_replace_tail h h1 lst pre (m :: post) post n Hc).
    + econstructor.
      * unfold h1. cbn [nodes]. rewrite lookup_insert_ne by congruence.
        apply lookup_insert_eq.
      * cbn [next]. apply (chain_frame h); [exact Hs2|].
        intros k Hk. destruct (Hpost k Hk). apply Hfr; assumption.
    + intros k Hk. destruct (Hpre k Hk). apply Hfr; assumption.
  - rewrite !map_app. cbn [map]. f_equal; [|f_equal].
    + apply map_ext_in. intros k Hk. destruct (Hpre k Hk). apply Hrec; assumption.
    + unfold rec_of, h1. cbn [nodes datas]. rewrite lookup_insert_ne by congruence.
      rewrite lookup_insert_eq, Hm. reflexivity.
    + apply map_ext_in. intros k Hk. destruct (Hpost k Hk). apply Hrec; assumption.
  - econstructor; [unfold h1; cbn [nodes]; apply lookup_insert_eq|]. constructor.
  - unfold rec_of, h1. cbn [nodes datas]. rewrite lookup_insert_eq, Hn. reflexivity.
Qed.

(** Removing the last node of a list dereferences NULL: [core_list_remove]
    relies on the node having a successor. *)
Theorem core_list_remove_last_faults (h : heap) (lst : option nat) (pre : list nat) (n : nat) :
  chain h lst (pre ++ [n]) -> core_list_remove (Some n) h = inr NullDeref.
Proof.
  intros Hc. apply chain_suffix in Hc.
  inversion Hc as [|? nd ? Hn Hc1]; subst. inversion Hc1 as [Hnx|].
  unfold core_list_remove, bind. rewrite (load_node_run _ _ _ Hn). rewrite <- Hnx.
  reflexivity.
Qed.

(** [core_list_insert_new] with room in both regions: the free cell
    [*memblock] is linked right after the insertion point, gets the free
    record [*datablock] holding a copy of [info], and both cursors move on by
    one; the rest of the list and its records are untouched. *)
Theorem core_list_insert_new_links (h : heap) (a : nat) (rest : list nat) (inf : list_data)
    (mb db mb_end db_end : nat) :
  chain h (Some a) (a :: rest) ->
  is_Some (nodes h !! mb) -> is_Some (datas h !! db) -> ~ In mb (a :: rest) ->
  (forall k nd, In k (a :: rest) -> nodes h !! k = Some nd -> info nd <> db) ->
  (mb + 1 < mb_end)%nat -> (db + 1 < db_end)%nat ->
  exists h', core_list_insert_new (Some a) inf mb db mb_end db_end h
               = inl ((Some mb, S mb, S db), h') /\
    chain h' (Some a) (a :: mb :: rest) /\ rec_of h' mb = Some inf /\
    (forall k, In k (a :: rest) -> rec_of h' k = rec_of h k).
Proof.
  intros Hc [g Hg] Hdb Hmb Hrec Hm Hd.
  inversion Hc as [|? nd ? Ha Hc']; subst.
  assert (Hma : mb <> a) by (intros ->; apply Hmb; left; reflexivity).
  unfold core_list_insert_new.
  replace (mb_end <=? mb + 1)%nat with false by (symmetry; apply Nat.leb_gt; lia).
  replace (db_end <=? db + 1)%nat with false by (symmetry; apply Nat.leb_gt; lia).
  cbn -[load_node set_next set_info store_data].
  unfold bind at 1. rewrite (load_node_run _ _ _ Ha).
  unfold bind at 1. rewrite (set_next_run _ _ _ _ Hg).
  unfold bind at 1. erewrite set_next_run
    by (cbn [nodes]; rewrite lookup_insert_ne by congruence; exact Ha).
  unfold bind at 1. erewrite set_info_run
    by (cbn [nodes]; rewrite lookup_insert_ne by congruence; apply lookup_insert_eq).
  unfold bind at 1. rewrite store_data_run by exact Hdb.
  eexists; split; [reflexivity|]. cbn [nodes datas next info].
  assert (Hfr : forall k, In k rest -> k <> a /\ k <> mb).
  { intros k Hk. split; intros ->.
    - pose proof (chain_NoDup _ _ _ Hc) as Hnd. apply NoDup_ListNoDup in Hnd.
      inversion Hnd; contradiction.
    - apply Hmb. right. exact Hk. }
  split; [|split].
  - econstructor; [cbn [nodes]; rewrite lookup_insert_ne by congruence; apply lookup_insert_eq|].
    cbn [next]. econstructor; [cbn [nodes]; apply lookup_insert_eq|]. cbn [next].
    apply (chain_frame h); [exact Hc'|]. intros k Hk. destruct (Hfr k Hk). cbn [nodes].
    rewrite !lookup_insert_ne by congruence. reflexivity.
  - unfold rec_of. cbn [nodes datas]. rewrite lookup_insert_eq. cbn [info].
    rewrite lookup_insert_eq. destruct inf; reflexivity.
  - intros k Hk. unfold rec_of. cbn [nodes datas].
    assert (Hk1 : k <> mb) by (intros ->; contradiction).
    rewrite lookup_insert_ne by congruence.
    destruct (decide (k = a)) as [->|Hka].
    + rewrite lookup_insert_eq, Ha. cbn [info].
      rewrite lookup_insert_ne by (apply not_eq_sym, (Hrec a nd); [left|]; auto).
      reflexivity.
    + rewrite !lookup_insert_ne by congruence.
      destruct (nodes h !! k) as [ndk|] eqn:Ek; [|reflexivity].
      rewrite lookup_insert_ne by (apply not_eq_sym, (Hrec k ndk); auto). reflexivity.
Qed.

(** *** The matrix kernel *)

Lemma to_s16_range (z : Z) : -32768 <= to_s16 z <= 32767.
Proof.
  unfold to_s16. pose proof (Z.mod_pos_bound z 65536 ltac:(lia)).
  destruct (z mod 65536 >=? 32768) eqn:E; [apply Z.geb_le in E|rewrite Z.geb_leb, Z.leb_gt in E]; lia.
Qed.

Lemma to_s16_id (z : Z) : -32768 <= z <= 32767 -> to_s16 z = z.
Proof.
  intros Hz. unfold to_s16.
  destruct (Z.neg_nonneg_cases z) as [Hn|Hn].
  - replace (z mod 65536) with (z + 65536)
      by (apply (Z.mod_unique z 65536 (-1)); lia).
    replace (z + 65536 >=? 32768) with true by (symmetry; apply Z.geb_le; lia). lia.
  - rewrite Z.mod_small by lia.
    replace (z >=? 32768) with false by (symmetry; rewrite Z.geb_leb; apply Z.leb_gt; lia). reflexivity.
Qed.

Lemma to_s16_mod (z : Z) : to_s16 z mod 65536 = z mod 65536.
Proof.
  unfold to_s16. destruct (z mod 65536 >=? 32768).
  - replace (z mod 65536 - 65536) with (z mod 65536 + (-1) * 65536) by lia.
    rewrite Z.mod_add, Z.mod_mod; lia.
  - apply Z.mod_mod. lia.
Qed.

Lemma to_s16_mod_eq (x y : Z) : x mod 65536 = y mod 65536 -> to_s16 x = to_s16 y.
Proof. intros E. unfold to_s16. rewrite E. reflexivity. Qed.

Lemma length_write_cells (f : nat -> Z) (k n : nat) (m : list Z) :
  length (write_cells f k n m) = length m.
Proof. revert k. induction m; intros k; simpl; auto. Qed.

Lemma nth_write_cells (f : nat -> Z) (n : nat) (m : list Z) :
  forall k i, (i < length m)%nat ->
  nth i (write_cells f k n m) 0 = if (k + i <? n)%nat then f (k + i)%nat else nth i m 0.
Proof.
  induction m as [|x m IH]; intros k i Hi; simpl in Hi; [lia|].
  destruct i as [|i]; simpl.
  - rewrite Nat.add_0_r. reflexivity.
  - rewrite IH by lia. replace (S k + i)%nat with (k + S i)%nat by lia. reflexivity.
Qed.

(** Adding [val] and then [-val] to the first [N*N] cells (with the [ee_s16]
    wrap-around) gives back cells that were [ee_s16] values. *)
Lemma matrix_add_const_inverse (N : nat) (A : list Z) (v : Z) :
  Forall (fun x => -32768 <= x <= 32767) A ->
  matrix_add_const N (matrix_add_const N A v) (to_s16 (- v)) = A.
Proof.
  intros HA. apply nth_ext with (d := 0) (d' := 0).
  { unfold matrix_add_const. rewrite !length_write_cells. reflexivity. }
  intros i Hi.
  assert (Hi' : (i < length A)%nat)
    by (revert Hi; unfold matrix_add_const; rewrite !length_write_cells; auto).
  clear Hi. rename Hi' into Hi.
  unfold matrix_add_const at 1. rewrite nth_write_cells by
    (unfold matrix_add_const; rewrite length_write_cells; exact Hi).
  cbn [Nat.add]. unfold cell. unfold matrix_add_const.
  rewrite nth_write_cells by exact Hi. cbn [Nat.add].
  assert (Hx : -32768 <= nth i A 0 <= 32767).
  { rewrite Forall_forall in HA. apply HA. apply list_elem_of_In, nth_In. exact Hi. }
  destruct (i <? N * N)%nat; [|reflexivity].
  unfold cell. rewrite <- (to_s16_id (nth i A 0)) at 2 by exact Hx.
  apply to_s16_mod_eq.
  rewrite Zplus_mod, !to_s16_mod, <- Zplus_mod.
  f_equal. lia.
Qed.

(** [matrix_test] ends with [matrix_add_const(N, A, -val)]: after
    [core_bench_matrix], the matrix [A] holds again the values it had, as
    long as they were [ee_s16] values; [B] and [N] are not changed. *)
Theorem core_bench_matrix_restores_A (p : mat_params) (seed crc : Z) :
  Forall (fun x => -32768 <= x <= 32767) (mat_A p) ->
  let p' := snd (core_bench_matrix p seed crc) in
  mat_A p' = mat_A p /\ mat_B p' = mat_B p /\ mat_N p' = mat_N p.
Proof.
  intros HA. unfold core_bench_matrix, matrix_test. cbn.
  split; [|split; reflexivity]. apply matrix_add_const_inverse. exact HA.
Qed.

Lemma matrix_dim_loop_spec (b : Z) (fuel : nat) :
  forall i, 0 < b <= 2 ^ 31 -> 0 <= i -> (i = 0 \/ 8 * (i - 1) ^ 2 < b) -> Z.of_nat fuel + i > b ->
  let N := matrix_dim_loop fuel b i (i * i * 2 * 4) in
  0 <= N /\ 8 * N ^ 2 < b <= 8 * (N + 1) ^ 2.
Proof.
  induction fuel as [|f IH]; intros i Hb Hi Hinv Hf N.
  - unfold N. simpl. destruct Hinv as [->|Hinv]; [lia|]. split; [lia|]. split; [exact Hinv|].
    replace (i - 1 + 1) with i by lia. nia.
  - unfold N. cbn [matrix_dim_loop].
    destruct (i * i * 2 * 4 <? b) eqn:E.
    + apply Z.ltb_lt in E.
      assert (Hi2 : i < 16384) by nia.
      replace (to_u32 ((i + 1) * (i + 1) * 2 * 4)) with ((i + 1) * (i + 1) * 2 * 4).
      * apply IH; try lia; nia.
      * unfold to_u32. rewrite Z.mod_small; [reflexivity|]. nia.
    + apply Z.ltb_ge in E. destruct Hinv as [->|Hinv]; [lia|]. split; [lia|].
      split; [exact Hinv|]. replace (i - 1 + 1) with i by lia. nia.
Qed.

Lemma matrix_fill_spec (count : nat) :
  forall order seed A B,
  Forall (fun x => -32768 <= x <= 32767) A -> Forall (fun x => -32768 <= x <= 32767) B ->
  let r := matrix_fill count order seed A B in
  length (fst r) = (length A + count)%nat /\ length (snd r) = (length B + count)%nat /\
  Forall (fun x => -32768 <= x <= 32767) (fst r) /\ Forall (fun x => -32768 <= x <= 32767) (snd r).
Proof.
  induction count as [|c IH]; intros order seed A B HA HB r; unfold r; cbn [matrix_fill].
  - simpl. rewrite !length_rev, !Nat.add_0_r.
    split; [reflexivity|]. split; [reflexivity|].
    split; apply Forall_rev; assumption.
  - destruct (IH (order + 1) (Z.rem (order * seed) 65536)
                (to_s16 (to_s16 (Z.rem (order * seed) 65536 + order) + order) :: A)
                (to_s16 (Z.rem (order * seed) 65536 + order) :: B))
      as (H1 & H2 & H3 & H4).
    + constructor; [apply to_s16_range|exact HA].
    + constructor; [apply to_s16_range|exact HB].
    + simpl in H1, H2. split; [lia|]. split; [lia|]. split; assumption.
Qed.

(** [core_init_matrix] on a block of [blksize] bytes ([0 < blksize <= 2^31])
    picks the largest [N] whose three matrices ([8*N*N] bytes: two of
    [ee_s16] and one of [ee_s32]) fit in the block, and fills [A] and [B]
    with [N*N] [ee_s16] values each; [C] has [N*N] cells. *)
Theorem core_init_matrix_dims (blksize seed : Z) :
  0 < blksize <= 2 ^ 31 ->
  let p := core_init_matrix blksize seed in
  let N := Z.of_nat (mat_N p) in
  8 * N ^ 2 < blksize <= 8 * (N + 1) ^ 2 /\
  length (mat_A p) = (mat_N p * mat_N p)%nat /\ length (mat_B p) = (mat_N p * mat_N p)%nat /\
  length (mat_C p) = (mat_N p * mat_N p)%nat /\
  Forall (fun x => -32768 <= x <= 32767) (mat_A p) /\
  Forall (fun x => -32768 <= x <= 32767) (mat_B p).
Proof.
  intros Hb. unfold core_init_matrix.
  destruct (matrix_dim_loop_spec blksize (S (Z.to_nat blksize)) 0 Hb ltac:(lia)
              ltac:(left; reflexivity) ltac:(lia)) as (H0 & Hlo & Hhi).
  cbn zeta. change (0 * 0 * 2 * 4) with 0 in *.
  set (n := matrix_dim_loop (S (Z.to_nat blksize)) blksize 0 0) in *.
  destruct (matrix_fill_spec (Z.to_nat n * Z.to_nat n) 1 (if seed =? 0 then 1 else seed) [] []
              ltac:(constructor) ltac:(constructor)) as (L1 & L2 & F1 & F2).
  destruct (matrix_fill _ _ _ _ _) as [A B]. cbn [fst snd mat_N mat_A mat_B mat_C] in *.
  rewrite Z2Nat.id by exact H0.
  split; [lia|]. split; [exact L1|]. split; [exact L2|].
  split; [apply repeat_length|]. split; assumption.
Qed.

(** *** [calc_func]: the cache in bit 7 of [data16] *)

Lemma bind_inl {St A B : Type} (m : M St A) (k : A -> M St B) (s : St) (b : B) (s' : St) :
  bind m k s = inl (b, s') -> exists a s1, m s = inl (a, s1) /\ k a s1 = inl (b, s').
Proof. unfold bind. destruct (m s) as [[a s1]|e]; [eauto|discriminate]. Qed.

Lemma to_s16_testbit (z i : Z) : 0 <= i < 16 -> Z.testbit (to_s16 z) i = Z.testbit z i.
Proof.
  intros Hi. rewrite <- (Z.mod_pow2_bits_low (to_s16 z) 16 i) by lia.
  rewrite <- (Z.mod_pow2_bits_low z 16 i) by lia. f_equal. apply to_s16_mod.
Qed.

(** The value [calc_func] stores, [(data & 0xff00) | 0x0080 | retval] with
    [retval = r & 0x7f], has bit 7 set and [retval] in its low 7 bits. *)
Lemma cache_bits (data r : Z) :
  let x := to_s16 (Z.lor (Z.lor (Z.land data 65280) 128) (Z.land r 127)) in
  Z.land (Z.shiftr x 7) 1 = 1 /\ Z.land x 127 = Z.land r 127.
Proof.
  intros x. split; apply Z.bits_inj'; intros j Hj.
  - rewrite Z.land_spec, Z.shiftr_spec by lia.
    destruct (Z.eq_dec j 0) as [->|Hj0].
    + unfold x. rewrite to_s16_testbit by lia. rewrite !Z.lor_spec.
      replace (Z.testbit 128 (0 + 7)) with true by reflexivity.
      replace (Z.testbit 1 0) with true by reflexivity.
      rewrite orb_true_r. reflexivity.
    + change 1 with (2 ^ 0). rewrite Z.pow2_bits_false by lia. apply andb_false_r.
  - rewrite !Z.land_spec. change 127 with (Z.ones 7).
    destruct (Z.lt_ge_cases j 7) as [Hj7|Hj7].
    + rewrite Z.ones_spec_low by lia. unfold x. rewrite to_s16_testbit by lia.
      rewrite !Z.lor_spec, !Z.land_spec.
      change 65280 with (255 * 2 ^ 8). rewrite Z.mul_pow2_bits_low by lia.
      change 128 with (2 ^ 7). rewrite Z.pow2_bits_false by lia.
      change 127 with (Z.ones 7). rewrite Z.ones_spec_low by lia.
      rewrite !andb_false_r, !andb_true_r. reflexivity.
    + rewrite Z.ones_spec_high by lia. rewrite !andb_false_r. reflexivity.
Qed.

(** What a run of [calc_func] on record [p] did: either the record was
    cached (bit 7 set) and nothing changed, or the result [r] of the
    computation was folded in and the record was rewritten with the cache. *)
Lemma calc_func_inv (p : nat) (s s' : bench) (v : Z) :
  calc_func p s = inl (v, s') ->
  exists d, datas (bheap s) !! p = Some d /\
    ((Z.land (Z.shiftr (data16 d) 7) 1 = 1 /\ v = Z.land (data16 d) 127 /\ s' = s) \/
     (exists r, v = Z.land r 127 /\
        bheap s' = mk_heap (nodes (bheap s))
                     (<[p := mk_data (to_s16 (Z.lor (Z.lor (Z.land (data16 d) 65280) 128)
                                                 (Z.land r 127))) (idx d)]>
                        (datas (bheap s))))).
Proof.
  destruct s as [h res]. intros H. unfold calc_func in H.
  apply bind_inl in H as (d & s1 & H1 & H2).
  unfold lift, load_data in H1. cbn [get_heap bench_HeapState bheap] in H1.
  destruct (datas h !! p) as [d0|] eqn:Ed; [|discriminate].
  injection H1 as -> <-. exists d. split; [exact Ed|].
  cbn [set_heap bench_HeapState bres] in H2.
  destruct (Z.land (Z.shiftr (data16 d) 7) 1 =? 1) eqn:Eo.
  - left. apply Z.eqb_eq in Eo. injection H2 as <- <-. auto.
  - right. apply bind_inl in H2 as (res1 & s2 & Hg & H3).
    injection Hg as <- <-.
    apply bind_inl in H3 as (r & s3 & Hm & H4).
    assert (Hh3 : bheap s3 = h).
    { revert Hm. destruct (Z.land (data16 d) 7) as [|[pp|pp|]|pp];
        try (destruct (core_bench_state _ _ _ _ _ _));
        try (destruct (core_bench_matrix _ _ _));
        cbv [bind put_res ret get_res]; intros Hm; injection Hm; intros; subst; reflexivity. }
    apply bind_inl in H4 as (res2 & s4 & Hg & H5). unfold get_res in Hg.
    injection Hg as <- <-.
    apply bind_inl in H5 as (u & s5 & Hp & H6). unfold put_res in Hp.
    injection Hp as <- <-.
    apply bind_inl in H6 as (d' & s6 & Hl & H7).
    unfold lift, load_data in Hl. cbn [get_heap bench_HeapState bheap] in Hl.
    rewrite Hh3, Ed in Hl. injection Hl as <- <-.
    apply bind_inl in H7 as (u' & s7 & Hs & H8).
    unfold lift, store_data in Hs. cbn [get_heap bench_HeapState bheap] in Hs.
    rewrite Ed in Hs. injection Hs as <- <-.
    injection H8 as <- <-. exists r. split; [reflexivity|]. reflexivity.
Qed.

Lemma calc_func_hit (p : nat) (s : bench) (x : list_data) :
  datas (bheap s) !! p = Some x -> Z.land (Z.shiftr (data16 x) 7) 1 = 1 ->
  calc_func p s = inl (Z.land (data16 x) 127, s).
Proof.
  destruct s as [h res]. cbn [bheap]. intros Hx Hb.
  unfold calc_func, bind, lift, load_data. cbn [get_heap set_heap bench_HeapState bheap bres].
  rewrite Hx. rewrite Hb. reflexivity.
Qed.

(** After a run of [calc_func] on [p], the record of [p] is cached with the
    value that run returned. *)
Lemma calc_func_leaves_cached (p : nat) (s s' : bench) (v : Z) :
  calc_func p s = inl (v, s') ->
  exists x, datas (bheap s') !! p = Some x /\ Z.land (Z.shiftr (data16 x) 7) 1 = 1 /\
            Z.land (data16 x) 127 = v.
Proof.
  intros H. destruct (calc_func_inv p s s' v H) as (d & Hd & [(Hb & -> & ->)|(r & -> & Hh)]).
  - eauto.
  - eexists. rewrite Hh. cbn [datas]. split; [apply lookup_insert_eq|]. cbn [data16].
    apply cache_bits.
Qed.

(** [calc_func] caches its result in the record: once it has returned [v]
    for a record, calling it again on that record returns [v] at once and
    changes nothing (no kernel run, no CRC update, no write). *)
Theorem calc_func_cached (p : nat) (s s' : bench) (v : Z) :
  calc_func p s = inl (v, s') -> calc_func p s' = inl (v, s').
Proof.
  intros H. destruct (calc_func_leaves_cached p s s' v H) as (x & Hx & Hb & <-).
  apply calc_func_hit; assumption.
Qed.

(** [cmp_complex] compares through [calc_func], so a comparison repeated on
    the same two records returns the same value and changes nothing: within
    a merge sort it behaves as a fixed comparator once each record has been
    seen. *)
Theorem cmp_complex_repeat (a b : nat) (s s' : bench) (v : Z) :
  cmp_complex a b s = inl (v, s') -> cmp_complex a b s' = inl (v, s').
Proof.
  intros H. unfold cmp_complex in H.
  apply bind_inl in H as (v1 & s1 & Ha & H).
  apply bind_inl in H as (v2 & s2 & Hb & H).
  injection H as <- <-.
  destruct (calc_func_leaves_cached a s s1 v1 Ha) as (xa & Hxa & Hba & Hva).
  destruct (calc_func_leaves_cached b s1 s2 v2 Hb) as (xb & Hxb & Hbb & Hvb).
  assert (Ha2 : calc_func a s2 = inl (v1, s2)).
  { destruct (decide (a = b)) as [->|Hab].
    - rewrite (calc_func_hit b s1 xa Hxa Hba), Hva in Hb. injection Hb as -> <-.
      rewrite <- Hva. apply calc_func_hit; assumption.
    - rewrite <- Hva. apply calc_func_hit; [|exact Hba].
      destruct (calc_func_inv b s1 s2 v2 Hb) as (d & _ & [(_ & _ & ->)|(r & _ & Hh)]);
        [exact Hxa|].
      rewrite Hh. cbn [datas]. rewrite lookup_insert_ne by congruence. exact Hxa. }
  unfold cmp_complex, bind. rewrite Ha2.
  rewrite (calc_func_cached b s1 s2 v2 Hb). reflexivity.
Qed.

(** *** The state machine of [core_state_transition] *)

Lemma isdigit_range (c : Z) : ee_isdigit c = true -> 48 <= c <= 57.
Proof. unfold ee_isdigit. intros H. apply andb_prop in H as [H1 H2]. lia. Qed.

(** Rewrite away the comparisons of a digit [c] with the other symbols the
    state machine tests ([48 <= c <= 57] must be in the context). *)
Ltac digit_neq c :=
  repeat match goal with
  | |- context [c =? ?k] =>
      let E := fresh in
      assert (E : (c =? k) = false) by (apply Z.eqb_neq; lia); rewrite E; clear E
  | |- context [ee_isdigit c] =>
      let E := fresh in
      assert (E : ee_isdigit c = true)
        by (unfold ee_isdigit; apply andb_true_intro; split; apply Z.leb_le; lia);
      rewrite E; clear E
  | |- context [?k <=? c] =>
      let E := fresh in
      assert (E : (k <=? c) = true) by (apply Z.leb_le; lia); rewrite E; clear E
  | |- context [c <=? ?k] =>
      let E := fresh in
      assert (E : (c <=? k) = true) by (apply Z.leb_le; lia); rewrite E; clear E
  end.

Ltac digit_facts c :=
  match goal with Hd : ee_isdigit c = true |- _ => pose proof (isdigit_range c Hd) end;
  digit_neq c.

(** In the states [CORE_INT], [CORE_FLOAT] and [CORE_SCIENTIFIC] digits are
    consumed without a transition and without counting. *)
Lemma digits_stay (st : core_state) (ds rest : list Z) (tc : list Z) :
  st = CORE_INT \/ st = CORE_FLOAT \/ st = CORE_SCIENTIFIC ->
  Forall (fun c => ee_isdigit c = true) ds ->
  core_state_transition (ds ++ rest) st tc = core_state_transition rest st tc.
Proof.
  intros Hst Hds. induction Hds as [|c ds Hc Hds IH]; [reflexivity|].
  simpl app. cbn [core_state_transition].
  destruct Hst as [ -> | [ -> | -> ] ]; cbn [state_step]; digit_facts c; rewrite ?Hc;
    cbn [orb negb]; exact IH.
Qed.

(** An optional sign and a non-empty run of digits lead from [CORE_START] to
    [CORE_INT]. *)
Lemma reach_int (sg : list Z) (d : Z) (ds tail : list Z) (tc : list Z) :
  sg = [] \/ sg = [43] \/ sg = [45] ->
  Forall (fun c => ee_isdigit c = true) (d :: ds) ->
  exists tc', core_state_transition (sg ++ d :: ds ++ tail) CORE_START tc
              = core_state_transition tail CORE_INT tc'.
Proof.
  intros Hsg Hds. inversion Hds as [|? ? Hd Hds']; subst.
  pose proof (isdigit_range d Hd).
  destruct Hsg as [ -> | [ -> | -> ] ]; simpl app; cbn -[bump];
    digit_neq d; cbn -[bump];
    eexists; apply digits_stay; auto.
Qed.

(** An optional sign, digits and a ['.'] lead from [CORE_START] to
    [CORE_FLOAT]. *)
Lemma reach_float (sg ds tail : list Z) (tc : list Z) :
  sg = [] \/ sg = [43] \/ sg = [45] ->
  Forall (fun c => ee_isdigit c = true) ds ->
  exists tc', core_state_transition (sg ++ ds ++ 46 :: tail) CORE_START tc
              = core_state_transition tail CORE_FLOAT tc'.
Proof.
  intros Hsg Hds. destruct ds as [|d ds].
  - destruct Hsg as [ -> | [ -> | -> ] ]; simpl app; cbn -[bump]; eexists; reflexivity.
  - destruct (reach_int sg d ds (46 :: tail) tc Hsg Hds) as [tc1 E].
    rewrite <- app_comm_cons. rewrite E. cbn -[bump]. eexists; reflexivity.
Qed.

(** [core_state_transition] recognises an integer: an optional sign and a
    non-empty run of digits, ended by [','], end in [CORE_INT] with the
    input advanced past the comma. *)
Theorem core_state_transition_int (sg ds rest : list Z) (tc : list Z) :
  sg = [] \/ sg = [43] \/ sg = [45] -> ds <> [] ->
  Forall (fun c => ee_isdigit c = true) ds ->
  exists tc', core_state_transition (sg ++ ds ++ 44 :: rest) CORE_START tc
              = (rest, CORE_INT, tc').
Proof.
  intros Hsg Hne Hds. destruct ds as [|d ds]; [congruence|].
  destruct (reach_int sg d ds (44 :: rest) tc Hsg Hds) as [tc1 E].
  rewrite <- app_comm_cons. rewrite E. cbn -[bump]. eexists; reflexivity.
Qed.

(** ... a fixed-point number: an optional sign, digits, ['.'] and digits
    (either run may be empty), ended by [','], end in [CORE_FLOAT]. *)
Theorem core_state_transition_float (sg ds1 ds2 rest : list Z) (tc : list Z) :
  sg = [] \/ sg = [43] \/ sg = [45] ->
  Forall (fun c => ee_isdigit c = true) ds1 -> Forall (fun c => ee_isdigit c = true) ds2 ->
  exists tc', core_state_transition (sg ++ ds1 ++ 46 :: ds2 ++ 44 :: rest) CORE_START tc
              = (rest, CORE_FLOAT, tc').
Proof.
  intros Hsg H1 H2. destruct (reach_float sg ds1 (ds2 ++ 44 :: rest) tc Hsg H1) as [tc1 E].
  rewrite E, digits_stay by auto. cbn -[bump]. eexists; reflexivity.
Qed.

(** ... a number in scientific notation: a fixed-point number followed by
    ['e'] or ['E'], a sign and a non-empty run of digits, ended by [','],
    ends in [CORE_SCIENTIFIC]. *)
Theorem core_state_transition_scientific (sg ds1 ds2 ds3 rest : list Z) (e s : Z)
    (tc : list Z) :
  sg = [] \/ sg = [43] \/ sg = [45] -> e = 69 \/ e = 101 -> s = 43 \/ s = 45 ->
  ds3 <> [] ->
  Forall (fun c => ee_isdigit c = true) ds1 -> Forall (fun c => ee_isdigit c = true) ds2 ->
  Forall (fun c => ee_isdigit c = true) ds3 ->
  exists tc', core_state_transition
                (sg ++ ds1 ++ 46 :: ds2 ++ e :: s :: ds3 ++ 44 :: rest) CORE_START tc
              = (rest, CORE_SCIENTIFIC, tc').
Proof.
  intros Hsg He Hs Hne H1 H2 H3.
  destruct (reach_float sg ds1 (ds2 ++ e :: s :: ds3 ++ 44 :: rest) tc Hsg H1) as [tc1 E].
  rewrite E, digits_stay by auto.
  destruct ds3 as [|d ds3]; [congruence|].
  inversion H3 as [|? ? Hd H3']; subst. pose proof (isdigit_range d Hd).
  destruct He as [-> | ->]; destruct Hs as [-> | ->]; simpl app; cbn -[bump];
    digit_neq d; cbn -[bump]; rewrite digits_stay by auto; cbn -[bump]; eexists; reflexivity.
Qed.

(** An exponent is accepted only after a ['.']: an optional sign and digits
    followed by ['e'] or ['E'] (as in the pattern ["-87e+832"] of
    [core_init_state]) end in [CORE_INVALID] right after the ['e']. *)
Theorem core_state_transition_exponent_needs_point (sg ds tail : list Z) (e : Z)
    (tc : list Z) :
  sg = [] \/ sg = [43] \/ sg = [45] -> e = 69 \/ e = 101 -> ds <> [] ->
  Forall (fun c => ee_isdigit c = true) ds ->
  exists tc', core_state_transition (sg ++ ds ++ e :: tail) CORE_START tc
              = (tail, CORE_INVALID, tc').
Proof.
  intros Hsg He Hne Hds. destruct ds as [|d ds]; [congruence|].
  destruct (reach_int sg d ds (e :: tail) tc Hsg Hds) as [tc1 E].
  rewrite <- app_comm_cons. rewrite E.
  destruct He as [-> | ->]; cbn -[bump]; destruct tail; cbn -[bump]; rewrite ?orb_true_r;
    eexists; reflexivity.
Qed.

(** *** The corruption of [core_bench_state] and the input of [core_init_state] *)

Lemma corrupt_twice (b st x : Z) (mem : list Z) :
  forall k,
  (forall j c, nth_error mem j = Some c -> (k + Z.of_nat j) mod st = 0 -> k + Z.of_nat j < b ->
     c = 44 \/ Z.lxor c (to_u8 x) <> 44) ->
  corrupt k b st x (corrupt k b st x mem) = mem.
Proof.
  induction mem as [|c mem IH]; intros k Hmem; [reflexivity|].
  cbn [corrupt]. rewrite IH.
  2:{ intros j c' Hj Hm Hb. apply (Hmem (S j) c' Hj); rewrite Nat2Z.inj_succ;
        replace (k + Z.succ (Z.of_nat j)) with (k + 1 + Z.of_nat j) by lia; assumption. }
  f_equal.
  destruct ((k mod st =? 0) && (k <? b)) eqn:Epos; cbn [andb]; [|reflexivity].
  apply andb_prop in Epos as [Em Eb]. apply Z.eqb_eq in Em. apply Z.ltb_lt in Eb.
  destruct (c =? 44) eqn:Ec; cbn [negb].
  - rewrite Ec. reflexivity.
  - apply Z.eqb_neq in Ec.
    assert (Hc : c = 44 \/ Z.lxor c (to_u8 x) <> 44)
      by (apply (Hmem O c eq_refl); cbn [Z.of_nat]; rewrite Z.add_0_r; assumption).
    destruct Hc as [Hc|Hc]; [contradiction|].
    apply Z.eqb_neq in Hc. rewrite Hc. cbn [negb].
    rewrite Z.lxor_assoc, Z.lxor_nilpotent, Z.lxor_0_r. reflexivity.
Qed.

(** [core_bench_state] XORs the bytes at offsets [0, step, 2*step, ...]
    below [blksize] with [(ee_u8)seed1], skipping commas, and then does the
    same with [seed2]. With [seed1 = seed2], [step > 0] and a block of at
    least [blksize] bytes, the block is given back unchanged, provided no
    byte the first pass XORs turns into a [','] (the second pass skips
    commas). *)
Theorem core_bench_state_restores (blksize : Z) (mem : list Z) (seed step crc : Z) :
  0 < step -> blksize <= Z.of_nat (length mem) ->
  (forall k c, nth_error mem k = Some c -> Z.of_nat k mod step = 0 -> Z.of_nat k < blksize ->
     c = 44 \/ Z.lxor c (to_u8 seed) <> 44) ->
  snd (core_bench_state blksize mem seed seed step crc) = mem.
Proof.
  intros _ _ Hmem. unfold core_bench_state.
  destruct (state_scan _ mem _ _) as [final1 track1].
  destruct (state_scan _ (corrupt 0 blksize step seed mem) _ _) as [final2 track2].
  apply corrupt_twice. exact Hmem.
Qed.

Lemma state_pattern_ok (seed : Z) :
  let '(buf, next) := state_pattern seed in
  length buf = Z.to_nat next /\ 0 < next /\ Forall (fun c => 0 < c < 256) buf.
Proof.
  unfold state_pattern.
  assert (Ha : 0 <= Z.land seed 7 < 8).
  { change 7 with (Z.ones 3). rewrite Z.land_ones by lia. apply Z.mod_pos_bound. lia. }
  assert (Hk : 0 <= Z.land (Z.shiftr seed 3) 3 < 4).
  { pose proof (Z.land_ones (Z.shiftr seed 3) 2 ltac:(lia)) as E. change (Z.ones 2) with 3 in E.
    rewrite E. apply Z.mod_pos_bound. lia. }
  generalize dependent (Z.land (Z.shiftr seed 3) 3). generalize dependent (Z.land seed 7).
  intros a Ha k Hk.
  assert (a = 0 \/ a = 1 \/ a = 2 \/ a = 3 \/ a = 4 \/ a = 5 \/ a = 6 \/ a = 7) by lia.
  assert (k = 0 \/ k = 1 \/ k = 2 \/ k = 3) by lia.
  repeat match goal with H : _ \/ _ |- _ => destruct H end; subst;
    vm_compute; (split; [reflexivity|split; [reflexivity|]]);
    repeat constructor.
Qed.

Lemma init_state_loop_spec (fuel : nat) :
  forall size total next buf seed out,
  0 <= total <= size -> length out = Z.to_nat total -> 0 <= next ->
  length buf = Z.to_nat next ->
  Forall (fun c => 0 < c < 256) buf -> Forall (fun c => 0 < c < 256) out ->
  let r := init_state_loop fuel size total next buf seed out in
  (length r <= Z.to_nat size)%nat /\ Forall (fun c => 0 < c < 256) r.
Proof.
  induction fuel as [|f IH]; intros size total next buf seed out Ht Hl Hn Hb Fb Fo r; unfold r;
    cbn [init_state_loop].
  - split; [lia|exact Fo].
  - destruct (total + next + 1 <? size) eqn:E; [|split; [lia|exact Fo]].
    apply Z.ltb_lt in E.
    pose proof (state_pattern_ok (to_s16 (seed + 1))) as Hp.
    destruct (state_pattern (to_s16 (seed + 1))) as [buf' next'].
    destruct Hp as (Hb' & Hn' & Fb').
    apply IH; try lia; try assumption.
    + destruct (next >? 0) eqn:En; [apply Z.gtb_lt in En|rewrite Z.gtb_ltb, Z.ltb_ge in En]; lia.
    + destruct (next >? 0); [|exact Hl].
      rewrite !length_app, length_firstn, Hl. simpl length. lia.
    + destruct (next >? 0); [|exact Fo].
      apply Forall_app. split; [exact Fo|]. apply Forall_app. split.
      * apply Forall_take. exact Fb.
      * constructor; [lia|constructor].
Qed.

(** [core_init_state] fills a block of [size] bytes ([1 <= size < 2^32]): a
    prefix of non-zero bytes (the comma-terminated patterns) followed by at
    least one 0, so the scans of [core_bench_state] stop inside the block. *)
Theorem core_init_state_layout (size seed : Z) :
  1 <= size < 2 ^ 32 ->
  let blk := core_init_state size seed in
  length blk = Z.to_nat size /\
  exists out n, blk = out ++ repeat 0 n /\ (0 < n)%nat /\ Forall (fun c => 0 < c < 256) out.
Proof.
  intros Hs blk. unfold blk, core_init_state.
  replace (to_u32 (size - 1)) with (size - 1)
    by (unfold to_u32; rewrite Z.mod_small; lia).
  destruct (init_state_loop_spec (Z.to_nat size) (size - 1) 0 0 [] seed [] ltac:(lia)
              eq_refl ltac:(lia) eq_refl ltac:(constructor) ltac:(constructor)) as [Hl Fo].
  set (out := init_state_loop _ _ _ _ _ _ _) in *.
  split.
  - rewrite length_app, repeat_length. lia.
  - exists out, (Z.to_nat size - length out)%nat. split; [reflexivity|]. split; [lia|exact Fo].
Qed.

(** *** [cmp_idx] with [res == NULL] *)

Lemma to_s16_bits_eq (x y : Z) :
  (forall j, 0 <= j < 16 -> Z.testbit x j = Z.testbit y j) -> to_s16 x = to_s16 y.
Proof.
  intros H. apply to_s16_mod_eq. change 65536 with (2 ^ 16). apply Z.bits_inj'.
  intros j Hj. destruct (Z.lt_ge_cases j 16).
  - rewrite !Z.mod_pow2_bits_low by lia. apply H. lia.
  - rewrite !Z.mod_pow2_bits_high by lia. reflexivity.
Qed.

Lemma restore_data16_bits (d j : Z) :
  0 <= j < 16 ->
  Z.testbit (restore_data16 d) j = Z.testbit d (if j <? 8 then j + 8 else j).
Proof.
  intros Hj. unfold restore_data16. rewrite to_s16_testbit by lia.
  rewrite Z.lor_spec, !Z.land_spec. change 65280 with (255 * 2 ^ 8).
  change 255 with (Z.ones 8).
  destruct (j <? 8) eqn:E; [apply Z.ltb_lt in E|apply Z.ltb_ge in E].
  - rewrite Z.mul_pow2_bits_low, Z.ones_spec_low, Z.shiftr_spec by lia.
    rewrite andb_false_r. reflexivity.
  - rewrite Z.mul_pow2_bits by lia. rewrite Z.ones_spec_low by lia.
    rewrite (Z.ones_spec_high 8 j) by lia. rewrite andb_true_r. simpl. apply orb_false_r.
Qed.

Lemma restore_data16_idem (d : Z) : restore_data16 (restore_data16 d) = restore_data16 d.
Proof.
  rewrite <- (to_s16_id (restore_data16 (restore_data16 d))) by apply to_s16_range.
  rewrite <- (to_s16_id (restore_data16 d)) at 2 by apply to_s16_range.
  apply to_s16_bits_eq. intros j Hj.
  rewrite (restore_data16_bits (restore_data16 d) j) by lia.
  destruct (j <? 8) eqn:E; [apply Z.ltb_lt in E|apply Z.ltb_ge in E].
  - rewrite (restore_data16_bits d (j + 8)), (restore_data16_bits d j) by lia.
    replace (j + 8 <? 8) with false by (symmetry; apply Z.ltb_ge; lia).
    replace (j <? 8) with true by (symmetry; apply Z.ltb_lt; lia). reflexivity.
  - reflexivity.
Qed.

Lemma normalized_restore (z i : Z) : normalized (mk_data (restore_data16 z) i).
Proof. unfold normalized. simpl. apply restore_data16_idem. Qed.

Lemma cmp_idx_null_inv (h h' : heap) (a b : nat) (v : Z) :
  cmp_idx_null a b h = inl (v, h') ->
  exists da db, datas h !! a = Some da /\ datas h !! b = Some db /\ v = idx da - idx db /\
    exists da' db', datas h' !! a = Some da' /\ datas h' !! b = Some db' /\
      normalized da' /\ normalized db' /\ idx da' = idx da /\ idx db' = idx db.
Proof.
  destruct h as [ns ds]. intros H. unfold cmp_idx_null in H.
  apply bind_inl in H as (da & h1 & H1 & H).
  unfold load_data in H1. cbn [datas] in H1.
  destruct (ds !! a) as [da0|] eqn:Ea; [|discriminate]. injection H1 as -> <-.
  apply bind_inl in H as (u & h2 & H2 & H).
  unfold store_data in H2. cbn [datas nodes] in H2. rewrite Ea in H2. injection H2 as <- <-.
  apply bind_inl in H as (db & h3 & H3 & H).
  unfold load_data in H3. cbn [datas] in H3.
  destruct (<[a:=_]> ds !! b) as [db0|] eqn:Eb; [|discriminate]. injection H3 as -> <-.
  apply bind_inl in H as (u' & h4 & H4 & H).
  unfold store_data in H4. cbn [datas nodes] in H4. rewrite Eb in H4. injection H4 as <- <-.
  set (ds2 := <[b := mk_data (restore_data16 (data16 db)) (idx db)]>
                (<[a := mk_data (restore_data16 (data16 da)) (idx da)]> ds)) in H.
  assert (Ha2 : ds2 !! a = Some (mk_data (restore_data16 (data16 (if decide (a = b) then db else da)))
                                   (idx (if decide (a = b) then db else da)))).
  { unfold ds2. destruct (decide (a = b)) as [<-|Hab].
    - rewrite lookup_insert_eq. reflexivity.
    - rewrite lookup_insert_ne by congruence. rewrite lookup_insert_eq. reflexivity. }
  apply bind_inl in H as (da' & h5 & H5 & H).
  unfold load_data in H5. cbn [datas] in H5. rewrite Ha2 in H5. injection H5 as <- <-.
  apply bind_inl in H as (db' & h6 & H6 & H).
  unfold load_data in H6. cbn [datas] in H6. unfold ds2 in H6 at 1.
  rewrite lookup_insert_eq in H6. injection H6 as <- <-.
  unfold ret in H. injection H as <- <-.
  destruct (decide (a = b)) as [<-|Hab].
  - rewrite lookup_insert_eq in Eb. injection Eb as <-.
    exists da, da. split; [exact Ea|]. split; [exact Ea|]. split; [reflexivity|].
    exists (mk_data (restore_data16 (data16 (mk_data (restore_data16 (data16 da)) (idx da))))
              (idx (mk_data (restore_data16 (data16 da)) (idx da)))).
    eexists. split; [exact Ha2|]. split; [unfold ds2; apply lookup_insert_eq|].
    split; [apply normalized_restore|]. split; [apply normalized_restore|]. auto.
  - rewrite lookup_insert_ne in Eb by congruence.
    exists da, db. split; [exact Ea|]. split; [exact Eb|]. split; [reflexivity|].
    do 2 eexists. split; [exact Ha2|]. split; [unfold ds2; apply lookup_insert_eq|].
    split; [apply normalized_restore|]. split; [apply normalized_restore|]. auto.
Qed.

(** [cmp_idx] with [res == NULL] returns [a->idx - b->idx] of the records as
    they were, and the [data16] it writes back is already restored: calling
    it again on the same records returns the same value and changes nothing. *)
Theorem cmp_idx_null_repeat (h h' : heap) (a b : nat) (v : Z) :
  cmp_idx_null a b h = inl (v, h') ->
  (exists da db, datas h !! a = Some da /\ datas h !! b = Some db /\ v = idx da - idx db) /\
  cmp_idx_null a b h' = inl (v, h').
Proof.
  intros H. destruct (cmp_idx_null_inv h h' a b v H)
    as (da & db & Ha & Hb & Hv & da' & db' & Ha' & Hb' & Na & Nb & Ia & Ib).
  split; [eauto|]. rewrite Hv, <- Ia, <- Ib. apply cmp_idx_null_normalized; assumption.
Qed.

(** ** Witnesses and counterexamples *)

Lemma core_list_mergesort_nonempty_sorted_stable_witness :
  exists n0 ns' h', core_list_mergesort cmp_idx_null (Some 0%nat) sample_heap = inl (Some n0, h') /\
    chain h' (Some n0) (n0 :: ns') /\ Permutation [0%nat; 1%nat; 2%nat] (n0 :: ns') /\
    Sorted (le_by (fun a b => idx_of sample_heap a - idx_of sample_heap b)) (n0 :: ns') /\
    (forall x, In x [0%nat; 1%nat; 2%nat] ->
       List.filter (eqv_by (fun a b => idx_of sample_heap a - idx_of sample_heap b) x) (n0 :: ns')
       = List.filter (eqv_by (fun a b => idx_of sample_heap a - idx_of sample_heap b) x)
           [0%nat; 1%nat; 2%nat]) /\
    (forall k, rec_of h' k = rec_of sample_heap k).
Proof.
  apply (core_list_mergesort_nonempty_sorted_stable cmp_idx_null
           (fun a b => idx_of sample_heap a - idx_of sample_heap b) sample_heap).
  - solve_chain.
  - discriminate.
  - intros a b Ha Hb.
    destruct Ha as [<-|[<-|[<-|[]]]]; destruct Hb as [<-|[<-|[<-|[]]]];
      vm_compute; reflexivity.
  - intros a b _ _. lia.
  - intros a b c _ _ _. lia.
Defined.

Lemma coremark_crclist_seed_0_0_66_differs : coremark_crclist 0 0 102 2000 1 <> inl 54448.
Proof. vm_compute. discriminate. Qed.

Lemma core_list_init_idx_ranks_witness :
  (100 <= 2000 < 2 ^ 32) /\
  exists h ins, core_list_build 2000 0 (list_region 2000) = inl (Some 0%nat, h) /\
    chain h (Some 0%nat) (0%nat :: ins ++ [1%nat]) /\
    Z.of_nat (length ins) = list_size 2000 - 3 /\
    forall t n, nth_error ins t = Some n ->
      exists d, rec_of h n = Some d /\
        idx d = (if Z.of_nat (S t) <? list_size 2000 / 5 then to_s16 (Z.of_nat (S t))
                 else Z.land 16383 (Z.lor (Z.shiftl (Z.land (Z.of_nat (S t) + 1) 7) 8)
                                          (Z.land (Z.lxor (Z.of_nat (S t)) 0) 65535))).
Proof. split; [lia|]. apply (core_list_init_idx_ranks 2000 0). lia. Defined.

(** C4: with [blksize = 2000] and [seed = 0], [size = 98] and [size / 5 = 19];
    the interior node at position [19] gets [idx = 1043], not [19], and the
    one at position [20] gets [1300 = (5 << 8) | 20], not
    [0x3fff & (((20 & 7) << 8) | 20) = 1044]. *)
Lemma core_list_init_idx_ranks_counterexample :
  list_size 2000 / 5 = 19 /\
  Z.land 16383 (Z.lor (Z.shiftl (Z.land 20 7) 8) (Z.lxor 20 0)) = 1044 /\
  exists q h, (lst <- core_list_build 2000 0 ;; list_seq lst) (list_region 2000) = inl (q, h) /\
    option_map fst (nth_error q 19) = Some 1043 /\
    option_map fst (nth_error q 20) = Some 1300.
Proof.
  split; [vm_compute; reflexivity|]. split; [vm_compute; reflexivity|].
  destruct ((lst <- core_list_build 2000 0 ;; list_seq lst) (list_region 2000))
    as [[q h]|e] eqn:E; [|vm_compute in E; discriminate].
  exists q, h. split; [reflexivity|].
  vm_compute in E. injection E as <- _. split; reflexivity.
Qed.

Lemma core_list_init_interior_count_witness :
  (100 <= 2000 < 2 ^ 32) /\
  (list_size 2000 = 2000 / 20 - 2 /\
   exists hd ns h, core_list_init 2000 0 (list_region 2000) = inl (Some hd, h) /\
     chain h (Some hd) ns /\
     Z.of_nat (length ns) - 2 = list_size 2000 - 3 /\
     Z.of_nat (length ns) - 2 = 2000 / 20 - 5).
Proof. split; [lia|]. apply (core_list_init_interior_count 2000 0). lia. Defined.

(** C5: with [blksize = 2000], [size = 98] but the list has [97] nodes: the
    head, the tail and [95] interior nodes. *)
Lemma core_list_init_interior_count_counterexample :
  list_size 2000 = 98 /\
  exists q h, (lst <- core_list_init 2000 0 ;; list_seq lst) (list_region 2000) = inl (q, h) /\
    length q = 97%nat.
Proof.
  split; [vm_compute; reflexivity|].
  destruct ((lst <- core_list_init 2000 0 ;; list_seq lst) (list_region 2000))
    as [[q h]|e] eqn:E; [|vm_compute in E; discriminate].
  exists q, h. split; [reflexivity|].
  vm_compute in E. injection E as <- _. reflexivity.
Qed.

Lemma core_list_mergesort_singleton_witness :
  nodes sample_heap !! 2%nat = Some (mk_head None 2%nat) /\ next (mk_head None 2%nat) = None /\
  (mergesort (node_cmp cmp_idx_null) [2%nat] sample_heap = inl (([2%nat], [1%nat]), sample_heap) /\
   core_list_mergesort cmp_idx_null (Some 2%nat) sample_heap = inl (Some 2%nat, sample_heap)).
Proof.
  split; [reflexivity|]. split; [reflexivity|].
  apply (core_list_mergesort_singleton cmp_idx_null sample_heap 2 (mk_head None 2)); reflexivity.
Defined.

(** C7: sorting a one-element list counts one merge, not zero. *)
Lemma core_list_mergesort_singleton_counterexample :
  exists r ps s, mergesort (fun a b : nat => ret (Z.of_nat a - Z.of_nat b) : M unit Z) [5%nat] tt
                 = inl ((r, ps), s) /\ ps = [1%nat] /\ ps <> [0%nat].
Proof. exists [5%nat], [1%nat], tt. split; [reflexivity|]. split; [reflexivity|discriminate]. Qed.

Lemma sort_reversed_eq_sort_direct_witness :
  exists hd h ns, (100 <= 200 < 2 ^ 32) /\
    core_list_init 200 0 (list_region 200) = inl (Some hd, h) /\
    chain h (Some hd) ns /\ NoDup (map (idx_of h) ns) /\
    exists q h1 h2, sort_reversed (Some hd) h = inl (q, h1) /\ sort_direct (Some hd) h = inl (q, h2).
Proof.
  destruct (core_list_init 200 0 (list_region 200)) as [[[hd|] h]|e] eqn:E.
  2, 3: vm_compute in E; discriminate E.
  pose proof E as E'. vm_compute in E'. injection E' as Hhd Hh. subst hd.
  exists 0%nat, h, [0; 6; 5; 4; 3; 2; 1]%nat.
  assert (Hc : chain h (Some 0%nat) [0; 6; 5; 4; 3; 2; 1]%nat) by (subst h; solve_chain).
  assert (Hnd : NoDup (map (idx_of h) [0; 6; 5; 4; 3; 2; 1]%nat))
    by (subst h; vm_compute;
        repeat (apply NoDup_cons; split; [rewrite list_elem_of_In; simpl; lia|]);
        apply NoDup_nil_2).
  split; [lia|]. split; [reflexivity|]. split; [exact Hc|]. split; [exact Hnd|].
  exact (sort_reversed_eq_sort_direct 200 0 0 h _ ltac:(lia) E Hc Hnd).
Defined.

Lemma core_list_reverse_reverses_witness :
  chain sample_heap (Some 0%nat) [0%nat; 1%nat; 2%nat] /\
  exists r h', core_list_reverse (Some 0%nat) sample_heap = inl (r, h') /\
    chain h' r (rev [0%nat; 1%nat; 2%nat]) /\ datas h' = datas sample_heap /\
    (forall k, option_map info (nodes h' !! k) = option_map info (nodes sample_heap !! k)) /\
    (forall k, rec_of h' k = rec_of sample_heap k) /\
    (forall k, ~ In k [0%nat; 1%nat; 2%nat] -> nodes h' !! k = nodes sample_heap !! k).
Proof.
  split; [solve_chain|].
  apply (core_list_reverse_reverses sample_heap (Some 0%nat) [0%nat; 1%nat; 2%nat]).
  solve_chain.
Defined.

Lemma core_list_reverse_twice_witness :
  chain sample_heap (Some 0%nat) [0%nat; 1%nat; 2%nat] /\
  exists r h1, core_list_reverse (Some 0%nat) sample_heap = inl (r, h1) /\
    core_list_reverse r h1 = inl (Some 0%nat, sample_heap).
Proof.
  split; [solve_chain|].
  apply (core_list_reverse_twice sample_heap (Some 0%nat) [0%nat; 1%nat; 2%nat]).
  solve_chain.
Defined.

Lemma core_list_remove_unlinks_witness :
  chain sample_heap (Some 0%nat) ([0%nat] ++ 1%nat :: 2%nat :: []) /\
  exists h1, core_list_remove (Some 1%nat) sample_heap = inl (Some 2%nat, h1) /\
    chain h1 (Some 0%nat) ([0%nat] ++ 1%nat :: []) /\
    map (rec_of h1) ([0%nat] ++ 1%nat :: []) = map (rec_of sample_heap) ([0%nat] ++ 2%nat :: []) /\
    chain h1 (Some 2%nat) [2%nat] /\ rec_of h1 2 = rec_of sample_heap 1.
Proof.
  split; [simpl; solve_chain|].
  apply (core_list_remove_unlinks sample_heap (Some 0%nat) [0%nat] [] 1 2).
  simpl; solve_chain.
Defined.

Lemma core_list_remove_last_faults_witness :
  chain sample_heap (Some 0%nat) ([0%nat; 1%nat] ++ [2%nat]) /\
  core_list_remove (Some 2%nat) sample_heap = inr NullDeref.
Proof.
  split; [simpl; solve_chain|].
  apply (core_list_remove_last_faults sample_heap (Some 0%nat) [0%nat; 1%nat] 2).
  simpl; solve_chain.
Defined.

Lemma core_list_insert_new_links_witness :
  let h := mk_heap (<[3%nat := mk_head None 3%nat]> (nodes sample_heap))
                   (<[3%nat := mk_data 0 0]> (datas sample_heap)) in
  exists h', core_list_insert_new (Some 0%nat) (mk_data 7 9) 3 3 5 5 h
               = inl ((Some 3%nat, 4%nat, 4%nat), h') /\
    chain h' (Some 0%nat) [0%nat; 3%nat; 1%nat; 2%nat] /\ rec_of h' 3 = Some (mk_data 7 9) /\
    (forall k, In k [0%nat; 1%nat; 2%nat] -> rec_of h' k = rec_of h k).
Proof.
  intros h.
  apply (core_list_insert_new_links h 0 [1%nat; 2%nat] (mk_data 7 9) 3 3 5 5).
  - solve_chain.
  - eexists; reflexivity.
  - eexists; reflexivity.
  - simpl; lia.
  - intros k nd Hk E. destruct Hk as [<-|[<-|[<-|[]]]];
      vm_compute in E; injection E as <-; simpl; lia.
  - lia.
  - lia.
Defined.

Lemma core_bench_matrix_restores_A_witness :
  let p := mk_mat 2 [1; -2; 300; 4] [5; 6; 7; 8] [0; 0; 0; 0] in
  Forall (fun x => -32768 <= x <= 32767) (mat_A p) /\
  let p' := snd (core_bench_matrix p 3 0) in
  mat_A p' = mat_A p /\ mat_B p' = mat_B p /\ mat_N p' = mat_N p.
Proof.
  intros p. assert (H : Forall (fun x => -32768 <= x <= 32767) (mat_A p)).
  { simpl. repeat constructor; lia. }
  split; [exact H|]. apply (core_bench_matrix_restores_A p 3 0). exact H.
Defined.

Lemma core_init_matrix_dims_witness :
  0 < 2000 <= 2 ^ 31 /\
  let p := core_init_matrix 2000 1 in
  let N := Z.of_nat (mat_N p) in
  8 * N ^ 2 < 2000 <= 8 * (N + 1) ^ 2 /\
  length (mat_A p) = (mat_N p * mat_N p)%nat /\ length (mat_B p) = (mat_N p * mat_N p)%nat /\
  length (mat_C p) = (mat_N p * mat_N p)%nat /\
  Forall (fun x => -32768 <= x <= 32767) (mat_A p) /\
  Forall (fun x => -32768 <= x <= 32767) (mat_B p).
Proof. split; [lia|]. apply (core_init_matrix_dims 2000 1). lia. Defined.

Lemma calc_func_cached_witness :
  exists v s', calc_func 1 sample_bench = inl (v, s') /\ calc_func 1 s' = inl (v, s').
Proof.
  destruct (calc_func 1 sample_bench) as [[v s']|e] eqn:E; [|vm_compute in E; discriminate].
  exists v, s'. split; [reflexivity|]. apply (calc_func_cached 1 sample_bench s' v). exact E.
Defined.

Lemma cmp_complex_repeat_witness :
  exists v s', cmp_complex 0 1 sample_bench = inl (v, s') /\ cmp_complex 0 1 s' = inl (v, s').
Proof.
  destruct (cmp_complex 0 1 sample_bench) as [[v s']|e] eqn:E; [|vm_compute in E; discriminate].
  exists v, s'. split; [reflexivity|]. apply (cmp_complex_repeat 0 1 sample_bench s' v). exact E.
Defined.

Lemma core_state_transition_int_witness :
  exists tc', core_state_transition ([] ++ [49; 50] ++ 44 :: [51; 44]) CORE_START (repeat 0 8)
              = ([51; 44], CORE_INT, tc').
Proof.
  apply (core_state_transition_int [] [49; 50] [51; 44] (repeat 0 8)).
  - left; reflexivity.
  - discriminate.
  - repeat constructor.
Defined.

Lemma core_state_transition_float_witness :
  exists tc', core_state_transition ([45] ++ [51] ++ 46 :: [53; 48] ++ 44 :: []) CORE_START
                (repeat 0 8) = ([], CORE_FLOAT, tc').
Proof.
  apply (core_state_transition_float [45] [51] [53; 48] [] (repeat 0 8)).
  - right; right; reflexivity.
  - repeat constructor.
  - repeat constructor.
Defined.

Lemma core_state_transition_scientific_witness :
  exists tc', core_state_transition ([43] ++ [] ++ 46 :: [49] ++ 101 :: 45 :: [55] ++ 44 :: [])
                CORE_START (repeat 0 8) = ([], CORE_SCIENTIFIC, tc').
Proof.
  apply (core_state_transition_scientific [43] [] [49] [55] [] 101 45 (repeat 0 8)).
  - right; left; reflexivity.
  - right; reflexivity.
  - right; reflexivity.
  - discriminate.
  - repeat constructor.
  - repeat constructor.
  - repeat constructor.
Defined.

Lemma core_state_transition_exponent_needs_point_witness :
  exists tc', core_state_transition ([] ++ [52] ++ 69 :: [50; 44]) CORE_START (repeat 0 8)
              = ([50; 44], CORE_INVALID, tc').
Proof.
  apply (core_state_transition_exponent_needs_point [] [52] [50; 44] 69 (repeat 0 8)).
  - left; reflexivity.
  - left; reflexivity.
  - discriminate.
  - repeat constructor.
Defined.

Lemma core_bench_state_restores_witness :
  snd (core_bench_state 40 (core_init_state 40 5) 5 5 3 0) = core_init_state 40 5.
Proof.
  apply (core_bench_state_restores 40 (core_init_state 40 5) 5 3 0).
  - lia.
  - vm_compute. congruence.
  - intros k c Hk _ _.
    assert (Hl : (k < length (core_init_state 40 5))%nat).
    { apply nth_error_Some. rewrite Hk. discriminate. }
    change (length (core_init_state 40 5)) with 40%nat in Hl.
    do 40 (destruct k as [|k]; [vm_compute in Hk; injection Hk as <-;
             first [left; reflexivity | right; intro Hc; vm_compute in Hc; discriminate Hc] |]).
    lia.
Defined.

Lemma core_init_state_layout_witness :
  1 <= 40 < 2 ^ 32 /\
  let blk := core_init_state 40 5 in
  length blk = Z.to_nat 40 /\
  exists out n, blk = out ++ repeat 0 n /\ (0 < n)%nat /\ Forall (fun c => 0 < c < 256) out.
Proof. split; [lia|]. apply (core_init_state_layout 40 5). lia. Defined.

Lemma cmp_idx_null_repeat_witness :
  let h := mk_heap (nodes sample_heap) (<[3%nat := mk_data 4660 5]> (datas sample_heap)) in
  exists v h', cmp_idx_null 3 1 h = inl (v, h') /\
    (exists da db, datas h !! 3%nat = Some da /\ datas h !! 1%nat = Some db /\
       v = idx da - idx db) /\
    cmp_idx_null 3 1 h' = inl (v, h').
Proof.
  intros h.
  destruct (cmp_idx_null 3 1 h) as [[v h']|e] eqn:E; [|vm_compute in E; discriminate].
  exists v, h'. split; [reflexivity|]. apply (cmp_idx_null_repeat h h' 3 1 v). exact E.
Defined.
